(** * Gestion de stock : FIFO ledger, bounded alert journal, packaging sort

    Shallow embedding of [src/gestion_stock.py] (class [GestionnaireStock])
    and verification of its specification.

    Modelling conventions.
    - Python [str] values are [string]s; the model is exact on ASCII text
      (the only non-ASCII text in the program is the constant part of the
      alert message, which is kept as its UTF-8 bytes).
    - Python [int] is [Z] (unbounded).  The interpreter's default limit of
      4300 digits on conversions between [int] and [str] is modelled in
      [Py.int]; [Py.str] is the conversion of integers below that limit.
    - [Dict[str, Deque[int]]] is a [gmap string (list Z)]; a deque is the
      list of its items, leftmost first.
    - Methods that mutate [self] are functions in the monad [M] of state
      and Python exceptions. *)

From Stdlib Require Import ZArith Ascii String List Lia Bool.
From stdpp Require Import gmap strings list fin_maps sorting.

Local Open Scope Z_scope.

(* ===================================================================== *)
(** ** Python text primitives                                             *)
(* ===================================================================== *)

Module Py.

(** Code point of a character. *)
Definition ord (c : ascii) : Z := Z.of_nat (nat_of_ascii c).

Definition chr (n : Z) : ascii := ascii_of_nat (Z.to_nat n).

(** [str.isascii] *)
Definition isascii_char (c : ascii) : bool := ord c <? 128.

Fixpoint isascii (s : string) : bool :=
  match s with
  | EmptyString => true
  | String c t => isascii_char c && isascii t
  end.

(** [str.upper] on ASCII text: only [a]..[z] are changed.  (On other text
    [str.upper] also maps letters beyond ASCII; the model is exact on ASCII
    text only.) *)
Definition upper_char (c : ascii) : ascii :=
  if (97 <=? ord c) && (ord c <=? 122) then chr (ord c - 32) else c.

Fixpoint upper (s : string) : string :=
  match s with
  | EmptyString => EmptyString
  | String c t => String (upper_char c) (upper t)
  end.

(** The slice [s[1:]]: never raises, the empty string has an empty slice.
    One character is dropped: on ASCII text, a character of the model is a
    character of the program. *)
Definition slice_from_1 (s : string) : string :=
  match s with
  | EmptyString => EmptyString
  | String _ t => t
  end.

(** *** [str(n)] / [f"{n}"] for an integer

    The decimal text of [n].  The interpreter refuses, with [ValueError],
    to convert an integer of more than [MAX_STR_DIGITS] = 4300 digits;
    [str] is the conversion below that limit, and the statements that
    depend on the text of a volume bound the volume by
    [10 ^ MAX_STR_DIGITS]. *)

Definition digit_char (d : Z) : ascii := chr (48 + d).

(** Decimal digits of a non-negative integer, most significant first.
    [fuel] bounds the number of digits. *)
Fixpoint digits (fuel : nat) (n : Z) : list Z :=
  match fuel with
  | O => []
  | S f => if n <? 10 then [n] else digits f (n / 10) ++ [n mod 10]
  end.

Definition digits_of (n : Z) : list Z :=
  digits (S (Z.to_nat (Z.log2 n))) n.

Fixpoint string_of_digits (ds : list Z) : string :=
  match ds with
  | [] => EmptyString
  | d :: t => String (digit_char d) (string_of_digits t)
  end.

Definition str (n : Z) : string :=
  if n <? 0 then String "-"%char (string_of_digits (digits_of (- n)))
  else string_of_digits (digits_of n).

(** *** [int(s)] for a string, base 10

    Surrounding white space is skipped, one optional sign is accepted, and
    the digits may be grouped by single underscores.  [None] stands for
    [ValueError]. *)

(** White space of an ASCII literal: tab, line feed, vertical tab, form
    feed, carriage return and space. *)
Definition is_space (c : ascii) : bool :=
  ((9 <=? ord c) && (ord c <=? 13)) || (ord c =? 32).

Definition digit_val (c : ascii) : option Z :=
  if (48 <=? ord c) && (ord c <=? 57) then Some (ord c - 48) else None.

Fixpoint lstrip (s : string) : string :=
  match s with
  | EmptyString => EmptyString
  | String c t => if is_space c then lstrip t else s
  end.

Fixpoint all_space (s : string) : bool :=
  match s with
  | EmptyString => true
  | String c t => is_space c && all_space t
  end.

(** [after_digit] tells whether the previous character was a digit: an
    underscore and the end of the literal are only legal then. *)
Fixpoint parse_digits (acc : Z) (after_digit : bool) (s : string) : option Z :=
  match s with
  | EmptyString => if after_digit then Some acc else None
  | String c t =>
      match digit_val c with
      | Some d => parse_digits (10 * acc + d) true t
      | None =>
          if Ascii.eqb c "_" then
            if after_digit then parse_digits acc false t else None
          else if is_space c && after_digit && all_space t then Some acc
          else None
      end
  end.

(** The value of a base-10 literal, whatever its length. *)
Definition int_literal (s : string) : option Z :=
  match lstrip s with
  | EmptyString => None
  | String c t =>
      if Ascii.eqb c "-" then Z.opp <$> parse_digits 0 false t
      else if Ascii.eqb c "+" then parse_digits 0 false t
      else parse_digits 0 false (String c t)
  end.

(** The interpreter's default limit on the digits of a conversion between
    [int] and [str] ([sys.get_int_max_str_digits()]). *)
Definition MAX_STR_DIGITS : Z := 4300.

(** Number of digit characters of a text (leading zeros count; signs,
    underscores and white space do not). *)
Fixpoint nb_digits (s : string) : Z :=
  match s with
  | EmptyString => 0
  | String c t =>
      match digit_val c with
      | Some _ => 1 + nb_digits t
      | None => nb_digits t
      end
  end.

(** [int(s)]: a literal of more than [MAX_STR_DIGITS] digits is refused
    with [ValueError] too. *)
Definition int (s : string) : option Z :=
  match int_literal s with
  | Some v => if MAX_STR_DIGITS <? nb_digits s then None else Some v
  | None => None
  end.

(** The operator [sub in s] on strings. *)
Fixpoint startswith (s p : string) : bool :=
  match p, s with
  | EmptyString, _ => true
  | String _ _, EmptyString => false
  | String a p', String b s' => Ascii.eqb a b && startswith s' p'
  end.

Fixpoint contains (sub s : string) : bool :=
  startswith s sub ||
  match s with
  | EmptyString => false
  | String _ t => contains sub t
  end.

(** "\n" *)
Definition nl : string := String (chr 10) EmptyString.

End Py.

(* ===================================================================== *)
(** ** [collections.deque]                                                *)
(* ===================================================================== *)

Module Deque.

Section Ops.
Context {A : Type}.

(** [d.append(x)] on a deque bounded by [maxlen] ([None]: unbounded).
    The item is added on the right; a deque that then holds more than
    [maxlen] items loses its leftmost one.  The second component is
    the discarded item, if any. *)
Definition append (maxlen : option nat) (d : list A) (x : A)
  : list A * option A :=
  match maxlen with
  | None => (d ++ [x], None)
  | Some m =>
      if (m <? length (d ++ [x]))%nat
      then (tail (d ++ [x]), head (d ++ [x]))
      else (d ++ [x], None)
  end.

(** [d.popleft()]: [None] stands for [IndexError] on an empty deque. *)
Definition popleft (d : list A) : option (A * list A) :=
  match d with
  | [] => None
  | x :: t => Some (x, t)
  end.

(** [deque(iterable, maxlen)]: the items are appended one by one.  The
    second component lists the items discarded on the way. *)
Fixpoint extend (maxlen : option nat) (d : list A) (l : list A)
  : list A * list A :=
  match l with
  | [] => (d, [])
  | x :: t =>
      let '(d1, o) := append maxlen d x in
      let '(d2, dropped) := extend maxlen d1 t in
      (d2, option_list o ++ dropped)
  end.

Definition of_list (maxlen : option nat) (l : list A) : list A * list A :=
  extend maxlen [] l.
End Ops.

End Deque.

(* ===================================================================== *)
(** ** State of a [GestionnaireStock] and of its environment              *)
(* ===================================================================== *)

(** Configuration constants. *)
Definition SEUIL_ALERTE : nat := 2.
Definition MAX_LOG_SIZE : nat := 3.

Inductive Niveau := INFO | WARNING | ERROR.

Inductive Exc := KeyError (k : string) | IndexError.

Record Monde := {
  (** [self.stock] *)
  stock : gmap string (list Z);
  (** [self.journal_alertes], oldest first *)
  journal_alertes : list string;
  (** what has been written to [FICHIER_ARCHIVE], one item per [write] *)
  archive : list string;
  (** records passed to [logging], oldest first *)
  console : list (Niveau * string);
  (** environment: outcome of the coming attempts to write to the disk
      ([false]: [IOError]); attempts beyond the list succeed *)
  disque : list bool;
  (** ghost: every entry the journal deque has discarded, in order *)
  ejectees : list string
}.

Definition set_stock (s : gmap string (list Z)) (w : Monde) : Monde :=
  {| stock := s; journal_alertes := journal_alertes w; archive := archive w;
     console := console w; disque := disque w; ejectees := ejectees w |}.

Definition set_journal (j : list string) (dropped : list string) (w : Monde)
  : Monde :=
  {| stock := stock w; journal_alertes := j; archive := archive w;
     console := console w; disque := disque w;
     ejectees := ejectees w ++ dropped |}.

Definition add_console (n : Niveau) (msg : string) (w : Monde) : Monde :=
  {| stock := stock w; journal_alertes := journal_alertes w;
     archive := archive w; console := console w ++ [(n, msg)];
     disque := disque w; ejectees := ejectees w |}.

(** One attempt to append [txt] to the archive file. *)
Definition ecrire_archive (txt : string) (w : Monde) : bool * Monde :=
  let ok := match disque w with b :: _ => b | [] => true end in
  (ok,
   {| stock := stock w; journal_alertes := journal_alertes w;
      archive := if ok then archive w ++ [txt] else archive w;
      console := console w; disque := tail (disque w);
      ejectees := ejectees w |}).

(** [GestionnaireStock()]: an empty controller, next to an archive file and
    a disk in the given state. *)
Definition init (fichier : list string) (d : list bool) : Monde :=
  {| stock := ∅; journal_alertes := []; archive := fichier; console := [];
     disque := d; ejectees := [] |}.

(** *** The monad of methods: state and exceptions *)

Inductive Res (A : Type) :=
| Ok (a : A) (w : Monde)
| Raise (e : Exc).
Arguments Ok {A} a w.
Arguments Raise {A} e.

Definition M (A : Type) : Type := Monde -> Res A.

Definition ret {A} (a : A) : M A := fun w => Ok a w.

Definition bind {A B} (m : M A) (f : A -> M B) : M B :=
  fun w => match m w with
           | Ok a w' => f a w'
           | Raise e => Raise e
           end.

Definition raise {A} (e : Exc) : M A := fun _ => Raise e.
Definition lire {A} (f : Monde -> A) : M A := fun w => Ok (f w) w.
Definition modifier (f : Monde -> Monde) : M unit := fun w => Ok tt (f w).

Declare Scope m_scope.
Delimit Scope m_scope with m.
Notation "x <- c1 ;; c2" := (bind c1 (fun x => c2))
  (at level 100, c1 at next level, right associativity) : m_scope.
Notation "c1 ;; c2" := (bind c1 (fun _ => c2))
  (at level 100, right associativity) : m_scope.
Local Open Scope m_scope.

(** [logging.info/warning/error] *)
Definition logging (n : Niveau) (msg : string) : M unit :=
  modifier (add_console n msg).

(** The expression [self.stock[cle]]. *)
Definition stock_getitem (cle : string) : M (list Z) :=
  fun w => match stock w !! cle with
           | Some d => Ok d w
           | None => Raise (KeyError cle)
           end.

(* ===================================================================== *)
(** ** Level 3: helpers                                                   *)
(* ===================================================================== *)

Definition _generer_cle_unique (type_p : string) (vol : Z) : string :=
  Py.upper type_p +:+ Py.str vol.

Definition _extraire_volume_cle (cle : string) : Z :=
  match Py.int (Py.slice_from_1 cle) with
  | Some v => v
  | None => 0
  end.

Definition _est_disponible (cle : string) (w : Monde) : bool :=
  match stock w !! cle with
  | Some d => (0 <? length d)%nat
  | None => false
  end.

Definition ligne_archive (message : string) : string :=
  "[ARCHIVE] " +:+ message +:+ Py.nl.

Definition _archiver_sur_disque (message : string) : M unit :=
  fun w =>
    let '(ok, w1) := ecrire_archive (ligne_archive message) w in
    if ok then Ok tt w1
    else logging ERROR "Échec critique : Impossible d'écrire sur le disque." w1.

Definition _enregistrer_dans_log (message : string) : M unit :=
  j <- lire journal_alertes ;;
  (if (length j =? MAX_LOG_SIZE)%nat then
     match j with
     | alerte_ejectee :: _ => _archiver_sur_disque alerte_ejectee
     | [] => raise IndexError
     end
   else ret tt) ;;
  modifier (fun w =>
    let '(j', o) := Deque.append (Some MAX_LOG_SIZE) (journal_alertes w) message in
    set_journal j' (option_list o) w).

Definition _nettoyer_alerte_resolue (cle : string) : M unit :=
  modifier (fun w =>
    let liste_filtr :=
      filter (fun a => Py.contains cle a = false) (journal_alertes w) in
    let '(j', dropped) := Deque.of_list (Some MAX_LOG_SIZE) liste_filtr in
    set_journal j' dropped w).

(* ===================================================================== *)
(** ** Level 2                                                            *)
(* ===================================================================== *)

Definition message_alerte (cle : string) (qte_actuelle : nat) : string :=
  "ALERTE: Stock critique pour " +:+ cle +:+ " (Qté: "
    +:+ Py.str (Z.of_nat qte_actuelle) +:+ ")".

(** [len(self.stock.get(cle, []))] *)
Definition quantite (cle : string) (w : Monde) : nat :=
  length (default [] (stock w !! cle)).

Definition _gerer_alerte_seuil (cle : string) : M unit :=
  qte_actuelle <- lire (quantite cle) ;;
  if (SEUIL_ALERTE <? qte_actuelle)%nat
  then _nettoyer_alerte_resolue cle
  else _enregistrer_dans_log (message_alerte cle qte_actuelle).

Definition _ajouter_au_stock (type_p : string) (vol : Z) : M string :=
  let cle := _generer_cle_unique type_p vol in
  present <- lire (fun w => bool_decide (is_Some (stock w !! cle))) ;;
  (if present then ret tt
   else modifier (fun w => set_stock (<[cle := []]> (stock w)) w)) ;;
  d <- stock_getitem cle ;;
  modifier (fun w => set_stock (<[cle := fst (Deque.append None d vol)]> (stock w)) w) ;;
  ret cle.

(** The statement [self.stock[cle].popleft()]; the value is the unit taken
    from the head of the queue. *)
Definition stock_popleft (cle : string) : M Z :=
  d <- stock_getitem cle ;;
  match Deque.popleft d with
  | Some (v, d') =>
      modifier (fun w => set_stock (<[cle := d']> (stock w)) w) ;;
      ret v
  | None => raise IndexError
  end.

Definition message_rupture (cle : string) : string :=
  "RUPTURE: " +:+ cle +:+ " manquant (Mis en Backorder)".

Fixpoint boucle_recuperer (liste_cles : list string) (produits_trouves : list string)
  : M (list string) :=
  match liste_cles with
  | [] => ret produits_trouves
  | cle :: reste =>
      dispo <- lire (_est_disponible cle) ;;
      if dispo then
        stock_popleft cle ;;
        _gerer_alerte_seuil cle ;;
        boucle_recuperer reste (produits_trouves ++ [cle])
      else
        logging WARNING (message_rupture cle) ;;
        boucle_recuperer reste produits_trouves
  end.

Definition _recuperer_produits (liste_cles : list string) : M (list string) :=
  boucle_recuperer liste_cles [].

(** [list.sort(key=..., reverse=True)] on the decorated list: a stable sort
    by decreasing volume, here by insertion from the right. *)
Fixpoint inserer (x : Z * string) (l : list (Z * string)) : list (Z * string) :=
  match l with
  | [] => [x]
  | y :: t => if fst y <=? fst x then x :: y :: t else y :: inserer x t
  end.

Fixpoint sort_reverse (l : list (Z * string)) : list (Z * string) :=
  match l with
  | [] => []
  | x :: t => inserer x (sort_reverse t)
  end.

(** The decoration of a key: [(vol, p)]. *)
Definition decorer (p : string) : Z * string := (_extraire_volume_cle p, p).

Definition _trier_produits_volume (produits : list string) : list string :=
  let temp_list := map decorer produits in
  map snd (sort_reverse temp_list).

(* ===================================================================== *)
(** ** Level 1                                                            *)
(* ===================================================================== *)

Definition traiter_ajout_produit (type_p : string) (volume : Z) : M unit :=
  cle_produit <- _ajouter_au_stock type_p volume ;;
  _gerer_alerte_seuil cle_produit ;;
  logging INFO ("Transaction terminée pour " +:+ cle_produit).

Definition traiter_commande_colis (commande : list string) : M (list string) :=
  produits_bruts <- _recuperer_produits commande ;;
  ret (_trier_produits_volume produits_bruts).

(* ===================================================================== *)
(** ** Notions used by the statements                                     *)
(* ===================================================================== *)

Definition est_chiffre (d : Z) : Prop := 0 <= d <= 9.

Definition valeur (acc : Z) (ds : list Z) : Z :=
  fold_left (fun a d => 10 * a + d) ds acc.

(** A character that no integer literal contains. *)
Definition caractere_etranger (c : ascii) : bool :=
  negb (bool_decide (is_Some (Py.digit_val c)) || Py.is_space c
        || Ascii.eqb c "_" || Ascii.eqb c "+" || Ascii.eqb c "-").

Fixpoint a_caractere_etranger (s : string) : bool :=
  match s with
  | EmptyString => false
  | String c t => caractere_etranger c || a_caractere_etranger t
  end.

(** A list is in decreasing order of [cle] (ties allowed). *)
Definition decroissant {A} (cle : A -> Z) (l : list A) : Prop :=
  StronglySorted (fun a b => cle b <= cle a) l.

(** The items of [l] whose key is [v], in the order of [l]. *)
Definition de_cle {A} (cle : A -> Z) (v : Z) (l : list A) : list A :=
  filter (fun x => cle x = v) l.

(** [sortie] keeps the items of equal key in the order of [entree]. *)
Definition stable {A} (cle : A -> Z) (entree sortie : list A) : Prop :=
  forall v, de_cle cle v sortie = de_cle cle v entree.

(** The journal holds at most [MAX_LOG_SIZE] entries. *)
Definition journal_borne (w : Monde) : Prop :=
  (length (journal_alertes w) <= MAX_LOG_SIZE)%nat.

(** No coming write to the disk fails. *)
Definition fiable (d : list bool) : Prop := Forall (eq true) d.

(** The archive file is its initial content [fichier] followed by one line
    per discarded journal entry, in the order of the discards. *)
Definition archive_suit (fichier : list string) (w : Monde) : Prop :=
  archive w = fichier ++ map ligne_archive (ejectees w).

(** Calls made on a controller. *)
Inductive Op :=
| OpEnregistrer (message : string)
| OpNettoyer (cle : string)
| OpAjout (type_p : string) (volume : Z)
| OpCommande (commande : list string).

Definition executer_op (o : Op) : M unit :=
  match o with
  | OpEnregistrer message => _enregistrer_dans_log message
  | OpNettoyer cle => _nettoyer_alerte_resolue cle
  | OpAjout type_p volume => traiter_ajout_produit type_p volume
  | OpCommande commande => traiter_commande_colis commande ;; ret tt
  end.

Fixpoint executer (ops : list Op) : M unit :=
  match ops with
  | [] => ret tt
  | o :: reste => executer_op o ;; executer reste
  end.

(** Number of occurrences of a key in a list of keys. *)
Definition occurrences (cle : string) (l : list string) : nat :=
  length (filter (fun x => x = cle) l).

(** The journal is bounded, the disk is reliable and the archive follows
    the discards. *)
Definition archive_fidele (fichier : list string) (w : Monde) : Prop :=
  journal_borne w /\ fiable (disque w) /\ archive_suit fichier w.

(** A controller with a full journal, on a reliable disk whose archive file
    is empty: two units of "A1" and one of "B3" are on hand. *)
Definition monde_exemple : Monde :=
  {| stock := <["A1" := [1; 1]]> (<["B3" := [3]]> ∅);
     journal_alertes :=
       [message_alerte "A1" 1; message_alerte "B3" 1; message_alerte "A12" 2];
     archive := []; console := []; disque := [true; true]; ejectees := [] |}.

(** Two ledgers whose queues have the same lengths. *)
Definition memes_longueurs (s1 s2 : gmap string (list Z)) : Prop :=
  forall k, length (default [] (s1 !! k)) = length (default [] (s2 !! k)).

(** Two states that differ at most by the volumes stored in the queues:
    every key has the same quantity in both, and the journal, the archive,
    the console and the disk are the same. *)
Definition indiscernables (w1 w2 : Monde) : Prop :=
  (forall k, quantite k w1 = quantite k w2)
  /\ journal_alertes w1 = journal_alertes w2
  /\ archive w1 = archive w2
  /\ console w1 = console w2
  /\ disque w1 = disque w2
  /\ ejectees w1 = ejectees w2.

(* ===================================================================== *)
(** ** Reporting                                                          *)
(* ===================================================================== *)

(** The loop of [_formater_historique_alertes], from the counter [i] on. *)
Fixpoint formater_depuis (i : Z) (alertes : list string) : list string :=
  match alertes with
  | [] => []
  | alerte :: reste =>
      ("Priorité " +:+ Py.str i +:+ " : " +:+ alerte)
        :: formater_depuis (i + 1) reste
  end.

(** [enumerate(self.journal_alertes, 1)]: the journal is read, not changed. *)
Definition _formater_historique_alertes (w : Monde) : list string :=
  formater_depuis 1 (journal_alertes w).

(** [afficher_rapport_alertes] changes nothing in the controller; its value
    here is what it writes to the standard output, one item per [print]. *)
Definition afficher_rapport_alertes (w : Monde) : list string :=
  [Py.nl +:+ "=== RAPPORT DE SÉCURITÉ STOCK ==="]
  ++ (match journal_alertes w with
      | [] => ["Aucune alerte active. Stock sain."]
      | _ :: _ => _formater_historique_alertes w
      end)
  ++ ["=================================" +:+ Py.nl].

(* ===================================================================== *)
(** ** Further notions used by the statements                             *)
(* ===================================================================== *)

(** A character that can start the decimal text of an integer. *)
Definition est_marqueur (c : ascii) : bool :=
  bool_decide (is_Some (Py.digit_val c)) || Ascii.eqb c "-".

(** A text without any digit or minus sign. *)
Fixpoint sans_marqueur (s : string) : bool :=
  match s with
  | EmptyString => true
  | String c t => negb (est_marqueur c) && sans_marqueur t
  end.

Definition est_warning (r : Niveau * string) : bool :=
  match r.1 with
  | WARNING => true
  | _ => false
  end.

(** The backorder notices on the console. *)
Definition ruptures (w : Monde) : list (Niveau * string) :=
  filter (fun r => est_warning r = true) (console w).



(** A series of records, as calls. *)
Definition enregistrements (messages : list string) : list Op :=
  map OpEnregistrer messages.


(** The state after a refused order: only the console has changed. *)
Definition apres_ruptures (commande : list string) (w : Monde) : Monde :=
  {| stock := stock w; journal_alertes := journal_alertes w;
     archive := archive w;
     console := console w
                ++ map (fun cle => (WARNING, message_rupture cle)) commande;
     disque := disque w; ejectees := ejectees w |}.

(* ===================================================================== *)
(** * Verification                                                        *)
(* ===================================================================== *)

(** ** Decimal text of an integer and its parsing *)

Example str_ex : Py.str 120 = "120" /\ Py.str 0 = "0" /\ Py.str (-45) = "-45".
Proof. repeat split; reflexivity. Qed.

Example int_ex :
  Py.int "12" = Some 12 /\ Py.int " +1_000 " = Some 1000 /\ Py.int "-7" = Some (-7)
  /\ Py.int "" = None /\ Py.int "B5" = None /\ Py.int "1__0" = None
  /\ Py.int "5_" = None /\ Py.int "- 5" = None /\ Py.int "007" = Some 7.
Proof. repeat split; reflexivity. Qed.

Example contains_ex :
  Py.contains "A1" "pour A12 (" = true /\ Py.contains "" "" = true
  /\ Py.contains "B3" "pour A12 (" = false.
Proof. repeat split; reflexivity. Qed.

Lemma chiffre_cases d :
  est_chiffre d ->
  d = 0 \/ d = 1 \/ d = 2 \/ d = 3 \/ d = 4 \/ d = 5 \/ d = 6 \/ d = 7
  \/ d = 8 \/ d = 9.
Proof. unfold est_chiffre. lia. Qed.

Ltac par_chiffre H :=
  apply chiffre_cases in H;
  repeat (destruct H as [H | H]; [subst | ]); [.. | subst].

Lemma digit_val_digit_char d :
  est_chiffre d -> Py.digit_val (Py.digit_char d) = Some d.
Proof. intros H. par_chiffre H; reflexivity. Qed.

Lemma digits_spec fuel :
  forall n, 0 <= n < 2 ^ Z.of_nat (S fuel) ->
    Py.digits (S fuel) n <> [] /\ Forall est_chiffre (Py.digits (S fuel) n)
    /\ valeur 0 (Py.digits (S fuel) n) = n.
Proof.
  induction fuel as [| f IH]; intros n Hn.
  - change (2 ^ Z.of_nat 1) with 2 in Hn. simpl.
    destruct (Z.ltb_spec n 10); [| lia].
    split; [discriminate | split; [| unfold valeur; simpl; lia]].
    constructor; [unfold est_chiffre; lia | constructor].
  - change (Py.digits (S (S f)) n)
      with (if n <? 10 then [n] else Py.digits (S f) (n / 10) ++ [n mod 10]).
    destruct (Z.ltb_spec n 10) as [Hlt | Hge].
    + split; [discriminate | split; [| unfold valeur; simpl; lia]].
      constructor; [unfold est_chiffre; lia | constructor].
    + assert (Hpow : 2 ^ Z.of_nat (S (S f)) = 2 * 2 ^ Z.of_nat (S f)).
      { rewrite (Nat2Z.inj_succ (S f)), Z.pow_succ_r by lia. reflexivity. }
      assert (Hq : 0 <= n / 10 < 2 ^ Z.of_nat (S f)).
      { split; [apply Z.div_pos; lia |].
        apply Z.div_lt_upper_bound; lia. }
      destruct (IH _ Hq) as (Hne & Hall & Hval).
      split; [| split].
      * intros Habs. apply app_eq_nil in Habs. destruct Habs; discriminate.
      * apply Forall_app. split; [exact Hall |].
        constructor; [| constructor].
        unfold est_chiffre. pose proof (Z.mod_pos_bound n 10). lia.
      * unfold valeur in *. rewrite fold_left_app, Hval. simpl.
        pose proof (Z.div_mod n 10). lia.
Qed.

Lemma digits_of_spec n :
  0 <= n ->
  Py.digits_of n <> [] /\ Forall est_chiffre (Py.digits_of n)
  /\ valeur 0 (Py.digits_of n) = n.
Proof.
  intros Hn. unfold Py.digits_of. apply digits_spec.
  split; [exact Hn |].
  destruct (Z.eq_dec n 0) as [-> | Hnz]; [reflexivity |].
  rewrite Nat2Z.inj_succ, Z2Nat.id by apply Z.log2_nonneg.
  apply Z.log2_spec. lia.
Qed.

Lemma parse_digits_chiffres ds :
  Forall est_chiffre ds ->
  forall acc b,
    Py.parse_digits acc b (Py.string_of_digits ds)
    = if bool_decide (ds = []) then (if b then Some acc else None)
      else Some (valeur acc ds).
Proof.
  induction 1 as [| d t Hd Ht IH]; intros acc b; [reflexivity |].
  cbn [Py.string_of_digits Py.parse_digits].
  rewrite (digit_val_digit_char d Hd), IH.
  rewrite (bool_decide_eq_false_2 (d :: t = [])) by discriminate.
  destruct t as [| d' t']; reflexivity.
Qed.

Lemma int_string_of_digits ds :
  ds <> [] -> Forall est_chiffre ds ->
  Py.int_literal (Py.string_of_digits ds) = Some (valeur 0 ds)
  /\ Py.int_literal (String "-" (Py.string_of_digits ds))
     = Some (- valeur 0 ds).
Proof.
  intros Hne Hall.
  pose proof (parse_digits_chiffres ds Hall 0 false) as Hp.
  rewrite (bool_decide_eq_false_2 (ds = [])) in Hp by exact Hne.
  split.
  - destruct ds as [| d t]; [congruence |].
    inversion Hall as [| ? ? Hd _]; subst.
    unfold Py.int_literal. cbn [Py.string_of_digits Py.lstrip] in *.
    par_chiffre Hd; exact Hp.
  - unfold Py.int_literal. cbn [Py.lstrip]. change (Py.is_space "-") with false.
    cbv iota. rewrite Hp. reflexivity.
Qed.

(** The text of an integer is a literal of that integer. *)
Lemma int_literal_str (n : Z) : Py.int_literal (Py.str n) = Some n.
Proof.
  unfold Py.str. destruct (Z.ltb_spec n 0) as [Hneg | Hpos].
  - destruct (digits_of_spec (- n)) as (Hne & Hall & Hval); [lia |].
    destruct (int_string_of_digits _ Hne Hall) as [_ ->].
    rewrite Hval. f_equal. lia.
  - destruct (digits_of_spec n Hpos) as (Hne & Hall & Hval).
    destruct (int_string_of_digits _ Hne Hall) as [-> _].
    rewrite Hval. reflexivity.
Qed.

Lemma digits_length fuel :
  forall n k, 0 <= n < 10 ^ k -> 1 <= k ->
    Z.of_nat (length (Py.digits fuel n)) <= k.
Proof.
  induction fuel as [| f IH]; intros n k Hn Hk; [simpl; lia |].
  cbn [Py.digits]. destruct (Z.ltb_spec n 10) as [Hlt | Hge]; [simpl; lia |].
  assert (Hk2 : 2 <= k).
  { destruct (Z.eq_dec k 1) as [-> | Hne]; [| lia].
    change (10 ^ 1) with 10 in Hn. lia. }
  assert (Hpow : 10 ^ k = 10 * 10 ^ (k - 1)).
  { replace k with (Z.succ (k - 1)) at 1 by lia. apply Z.pow_succ_r. lia. }
  assert (Hq : 0 <= n / 10 < 10 ^ (k - 1)).
  { split; [apply Z.div_pos; lia |]. apply Z.div_lt_upper_bound; lia. }
  rewrite length_app. simpl.
  pose proof (IH (n / 10) (k - 1) Hq ltac:(lia)). lia.
Qed.

Lemma nb_digits_string_of_digits ds :
  Forall est_chiffre ds ->
  Py.nb_digits (Py.string_of_digits ds) = Z.of_nat (length ds).
Proof.
  induction 1 as [| d t Hd _ IH]; [reflexivity |].
  cbn [Py.string_of_digits Py.nb_digits length].
  rewrite (digit_val_digit_char d Hd), IH. lia.
Qed.

(** The text of an integer below the limit has at most 4300 digits. *)
Lemma nb_digits_str (n : Z) :
  - 10 ^ Py.MAX_STR_DIGITS < n < 10 ^ Py.MAX_STR_DIGITS ->
  Py.nb_digits (Py.str n) <= Py.MAX_STR_DIGITS.
Proof.
  assert (Hk : 1 <= Py.MAX_STR_DIGITS) by (unfold Py.MAX_STR_DIGITS; lia).
  revert Hk. generalize Py.MAX_STR_DIGITS. intros k Hk Hn. unfold Py.str.
  destruct (Z.ltb_spec n 0) as [Hneg | Hpos].
  - destruct (digits_of_spec (- n)) as (_ & Hall & _); [lia |].
    cbn [Py.nb_digits]. change (Py.digit_val "-") with (@None Z).
    rewrite (nb_digits_string_of_digits _ Hall).
    apply digits_length; lia.
  - destruct (digits_of_spec n Hpos) as (_ & Hall & _).
    rewrite (nb_digits_string_of_digits _ Hall).
    apply digits_length; lia.
Qed.

Lemma petit_volume n :
  - 100 < n < 100 -> - 10 ^ Py.MAX_STR_DIGITS < n < 10 ^ Py.MAX_STR_DIGITS.
Proof.
  intros Hn.
  assert (H : 10 ^ 2 <= 10 ^ Py.MAX_STR_DIGITS).
  { apply Z.pow_le_mono_r; [lia |]. unfold Py.MAX_STR_DIGITS. lia. }
  change (10 ^ 2) with 100 in H.
  revert H. generalize (10 ^ Py.MAX_STR_DIGITS). intros L H. lia.
Qed.

(** [int(str(n)) == n] for every integer that [str] converts. *)
Lemma int_str (n : Z) :
  - 10 ^ Py.MAX_STR_DIGITS < n < 10 ^ Py.MAX_STR_DIGITS ->
  Py.int (Py.str n) = Some n.
Proof.
  intros Hn. unfold Py.int. rewrite int_literal_str.
  pose proof (nb_digits_str n Hn) as Hd.
  destruct (Z.ltb_spec Py.MAX_STR_DIGITS (Py.nb_digits (Py.str n))) as [H | H];
    [| reflexivity].
  exfalso. revert Hd H. generalize Py.MAX_STR_DIGITS (Py.nb_digits (Py.str n)).
  intros a b. lia.
Qed.

(** A literal of more than 4300 digits is refused, whatever its value. *)
Lemma int_trop_long s :
  Py.MAX_STR_DIGITS < Py.nb_digits s -> Py.int s = None.
Proof.
  intros H. unfold Py.int. destruct (Py.int_literal s); [| reflexivity].
  destruct (Z.ltb_spec Py.MAX_STR_DIGITS (Py.nb_digits s)) as [_ | Hle];
    [reflexivity |].
  exfalso. revert H Hle. generalize Py.MAX_STR_DIGITS (Py.nb_digits s).
  intros a b. lia.
Qed.

Lemma all_space_etranger s :
  a_caractere_etranger s = true -> Py.all_space s = false.
Proof.
  induction s as [| c t IH]; simpl; [discriminate |].
  intros H. apply orb_true_iff in H. destruct H as [H | H].
  - unfold caractere_etranger in H.
    destruct (Py.is_space c); [| reflexivity].
    rewrite orb_true_r in H. discriminate.
  - rewrite (IH H). apply andb_false_r.
Qed.

Lemma parse_digits_etranger s :
  a_caractere_etranger s = true ->
  forall acc b, Py.parse_digits acc b s = None.
Proof.
  induction s as [| c t IH]; simpl; [discriminate |].
  intros H acc b. apply orb_true_iff in H.
  destruct (Py.digit_val c) as [d |] eqn:Hd.
  - destruct H as [H | H]; [| apply IH; exact H].
    unfold caractere_etranger in H. rewrite Hd in H. discriminate.
  - destruct H as [H | H].
    + unfold caractere_etranger in H.
      destruct (Ascii.eqb c "_"); [rewrite !orb_true_r in H; discriminate |].
      destruct (Py.is_space c); [rewrite !orb_true_r in H; discriminate |].
      reflexivity.
    + destruct (Ascii.eqb c "_").
      * destruct b; [apply IH; exact H | reflexivity].
      * rewrite (all_space_etranger t H), andb_false_r. reflexivity.
Qed.

Lemma lstrip_etranger s :
  a_caractere_etranger s = true -> a_caractere_etranger (Py.lstrip s) = true.
Proof.
  induction s as [| c t IH]; simpl; [discriminate |].
  intros H. destruct (Py.is_space c) eqn:Hs; [| exact H].
  apply IH. apply orb_true_iff in H. destruct H as [H | H]; [| exact H].
  unfold caractere_etranger in H. rewrite Hs, !orb_true_r in H. discriminate.
Qed.

(** [int] raises [ValueError] on a text with a character that is neither a
    digit, a sign, an underscore nor white space. *)
Lemma int_literal_etranger s :
  a_caractere_etranger s = true -> Py.int_literal s = None.
Proof.
  intros H. apply lstrip_etranger in H. unfold Py.int_literal.
  destruct (Py.lstrip s) as [| c t]; [reflexivity |].
  destruct (Ascii.eqb c "-") eqn:Hm; [| destruct (Ascii.eqb c "+") eqn:Hp].
  - simpl in H. unfold caractere_etranger in H.
    rewrite Hm, !orb_true_r in H. simpl in H.
    rewrite (parse_digits_etranger t H). reflexivity.
  - simpl in H. unfold caractere_etranger in H.
    rewrite Hp, !orb_true_r in H. simpl in H.
    apply parse_digits_etranger. exact H.
  - apply parse_digits_etranger. exact H.
Qed.

Lemma int_etranger s : a_caractere_etranger s = true -> Py.int s = None.
Proof.
  intros H. unfold Py.int. rewrite (int_literal_etranger s H). reflexivity.
Qed.

(** ** Product keys *)

Lemma extraire_volume_cle_echec cle :
  Py.int (Py.slice_from_1 cle) = None -> _extraire_volume_cle cle = 0.
Proof. unfold _extraire_volume_cle. intros ->. reflexivity. Qed.

(** C4 (as amended): for a type tag of exactly one ASCII character [c] and
    a non-negative volume [vol] of at most [Py.MAX_STR_DIGITS] = 4300
    digits (the largest the interpreter converts to text), the volume
    parsed from
    the key [_generer_cle_unique c vol] is [vol]; and an ASCII key [cle]
    whose text after the first character is empty, is refused by [int], or
    holds a character foreign to integer literals, has the parsed volume
    0. *)
Theorem cle_roundtrip_un_caractere (c : ascii) (vol : Z) (cle : string) :
  Py.isascii (String c "") = true ->
  0 <= vol < 10 ^ Py.MAX_STR_DIGITS ->
  Py.isascii cle = true ->
  (Py.slice_from_1 cle = ""
   \/ Py.int (Py.slice_from_1 cle) = None
   \/ a_caractere_etranger (Py.slice_from_1 cle) = true) ->
  _extraire_volume_cle (_generer_cle_unique (String c "") vol) = vol
  /\ _extraire_volume_cle cle = 0.
Proof.
  intros _ Hvol _ Hbad. split.
  - change (_generer_cle_unique (String c "") vol)
      with (String (Py.upper_char c) (Py.str vol)).
    unfold _extraire_volume_cle. cbn [Py.slice_from_1].
    rewrite int_str; [reflexivity |].
    revert Hvol. generalize (10 ^ Py.MAX_STR_DIGITS). intros L Hvol. lia.
  - apply extraire_volume_cle_echec.
    destruct Hbad as [-> | [H | H]]; [reflexivity | exact H |].
    apply int_etranger. exact H.
Qed.

Lemma cle_roundtrip_un_caractere_witness :
  _extraire_volume_cle (_generer_cle_unique "b" 30) = 30
  /\ _extraire_volume_cle "AB5" = 0.
Proof.
  apply (cle_roundtrip_un_caractere "b" 30 "AB5").
  - reflexivity.
  - split; [lia | apply (petit_volume 30); lia].
  - reflexivity.
  - right. right. reflexivity.
Defined.

(** C4 fails as stated: a type tag of two characters is not empty, and the
    volume read back from its key is not the volume the key was made from. *)
Lemma cle_roundtrip_deux_caracteres :
  "A1" <> "" /\ 0 <= 2
  /\ _generer_cle_unique "A1" 2 = "A12"
  /\ _extraire_volume_cle (_generer_cle_unique "A1" 2) = 12
  /\ _extraire_volume_cle (_generer_cle_unique "AB" 5) = 0
  /\ _extraire_volume_cle (_generer_cle_unique "A1" 2) <> 2.
Proof. repeat split; try discriminate; reflexivity. Qed.

(** ** The packaging sort *)

Section Tri.
Context {A : Type} (cle : A -> Z).

Lemma de_cle_cons v x l :
  de_cle cle v (x :: l)
  = if decide (cle x = v) then x :: de_cle cle v l else de_cle cle v l.
Proof. unfold de_cle. rewrite filter_cons. reflexivity. Qed.

Lemma de_cle_sublist v l : de_cle cle v l `sublist_of` l.
Proof. unfold de_cle. apply sublist_filter. Qed.

Lemma sublist_de_cle v l1 l2 :
  l1 `sublist_of` l2 -> de_cle cle v l1 `sublist_of` de_cle cle v l2.
Proof.
  induction 1 as [| x l1 l2 _ IH | x l1 l2 _ IH]; [constructor | |].
  - rewrite !de_cle_cons. destruct (decide (cle x = v)); [constructor |]; exact IH.
  - rewrite de_cle_cons. destruct (decide (cle x = v)); [constructor |]; exact IH.
Qed.

Lemma decroissant_tete x l y :
  decroissant cle (x :: l) -> y ∈ l -> cle y <= cle x.
Proof.
  intros Hs Hy. apply StronglySorted_inv in Hs. destruct Hs as [_ Hall].
  rewrite Forall_forall in Hall. apply Hall. exact Hy.
Qed.

Lemma de_cle_elem v x l : x ∈ de_cle cle v l -> cle x = v /\ x ∈ l.
Proof. unfold de_cle. rewrite list_elem_of_filter. tauto. Qed.

(** The head of a sorted list carries the largest key, so it is the head of
    its own group. *)
Lemma decroissant_meme_tete x l y l' :
  decroissant cle (x :: l) -> decroissant cle (y :: l') ->
  stable cle (x :: l) (y :: l') -> x = y.
Proof.
  intros Hs Hs' Hst.
  assert (Hxy : cle x <= cle y).
  { pose proof (Hst (cle x)) as H. rewrite (de_cle_cons _ x) in H.
    rewrite decide_True in H by reflexivity.
    assert (Hin : x ∈ de_cle cle (cle x) (y :: l')) by (rewrite H; left).
    apply de_cle_elem in Hin. destruct Hin as [_ Hin].
    apply elem_of_cons in Hin. destruct Hin as [-> | Hin]; [lia |].
    eapply decroissant_tete; eassumption. }
  assert (Hyx : cle y <= cle x).
  { pose proof (Hst (cle y)) as H. rewrite (de_cle_cons _ y) in H.
    rewrite decide_True in H by reflexivity.
    assert (Hin : y ∈ de_cle cle (cle y) (x :: l)) by (rewrite <- H; left).
    apply de_cle_elem in Hin. destruct Hin as [_ Hin].
    apply elem_of_cons in Hin. destruct Hin as [-> | Hin]; [lia |].
    eapply decroissant_tete; eassumption. }
  pose proof (Hst (cle x)) as H. rewrite !de_cle_cons in H.
  rewrite decide_True in H by lia. rewrite decide_True in H by reflexivity.
  congruence.
Qed.

(** A stable sort has one possible result: two sorted lists with the same
    groups of equal keys are equal. *)
Lemma tri_stable_unique l :
  forall l', decroissant cle l -> decroissant cle l' -> stable cle l l' ->
    l = l'.
Proof.
  induction l as [| x l IH]; intros l' Hs Hs' Hst.
  - destruct l' as [| y l']; [reflexivity |].
    pose proof (Hst (cle y)) as H. rewrite de_cle_cons in H.
    rewrite decide_True in H by reflexivity. discriminate.
  - destruct l' as [| y l'].
    + pose proof (Hst (cle x)) as H. rewrite de_cle_cons in H.
      rewrite decide_True in H by reflexivity. discriminate.
    + assert (x = y) by (eapply decroissant_meme_tete; eassumption). subst y.
      f_equal. apply IH.
      * apply StronglySorted_inv in Hs. tauto.
      * apply StronglySorted_inv in Hs'. tauto.
      * intros v. pose proof (Hst v) as H. rewrite !de_cle_cons in H.
        destruct (decide (cle x = v)); congruence.
Qed.

End Tri.

Lemma inserer_perm x l : inserer x l ≡ₚ x :: l.
Proof.
  induction l as [| y t IH]; simpl; [reflexivity |].
  destruct (fst y <=? fst x); [reflexivity |].
  rewrite IH. apply perm_swap.
Qed.

Lemma sort_reverse_perm l : sort_reverse l ≡ₚ l.
Proof.
  induction l as [| x t IH]; simpl; [reflexivity |].
  rewrite inserer_perm, IH. reflexivity.
Qed.

Lemma inserer_decroissant x l :
  decroissant fst l -> decroissant fst (inserer x l).
Proof.
  unfold decroissant. induction l as [| y t IH]; simpl; intros Hs.
  - repeat constructor.
  - apply StronglySorted_inv in Hs. destruct Hs as [Ht Hy].
    destruct (Z.leb_spec (fst y) (fst x)) as [Hle | Hgt].
    + constructor; [constructor; assumption |].
      constructor; [exact Hle |].
      eapply Forall_impl; [exact Hy |]. simpl. intros z Hz. lia.
    + constructor; [apply IH; exact Ht |].
      rewrite inserer_perm. constructor; [lia | exact Hy].
Qed.

Lemma sort_reverse_decroissant l : decroissant fst (sort_reverse l).
Proof.
  induction l as [| x t IH]; simpl; [constructor |].
  apply inserer_decroissant, IH.
Qed.

Lemma inserer_de_cle v x l :
  de_cle fst v (inserer x l) = de_cle fst v (x :: l).
Proof.
  induction l as [| y t IH]; simpl; [reflexivity |].
  destruct (Z.leb_spec (fst y) (fst x)) as [Hle | Hgt]; [reflexivity |].
  rewrite (de_cle_cons _ _ y), IH, !de_cle_cons.
  destruct (decide (fst y = v)), (decide (fst x = v)); try reflexivity. lia.
Qed.

Lemma sort_reverse_stable l : stable fst l (sort_reverse l).
Proof.
  intros v. induction l as [| x t IH]; simpl; [reflexivity |].
  rewrite inserer_de_cle, !de_cle_cons, IH. reflexivity.
Qed.

(** The sorted decorated list is the decoration of the result. *)
Lemma sort_reverse_decorer produits :
  sort_reverse (map decorer produits)
  = map decorer (_trier_produits_volume produits).
Proof.
  unfold _trier_produits_volume. cbv zeta.
  assert (H : Forall (fun q => decorer (snd q) = q)
                (sort_reverse (map decorer produits))).
  { rewrite sort_reverse_perm. apply Forall_forall. intros q Hq.
    apply list_elem_of_In, in_map_iff in Hq. destruct Hq as (p & <- & _).
    reflexivity. }
  induction H as [| q l Hq _ IH]; simpl; [reflexivity |].
  rewrite Hq, <- IH. reflexivity.
Qed.

Lemma de_cle_decorer v l :
  de_cle fst v (map decorer l) = map decorer (de_cle _extraire_volume_cle v l).
Proof.
  induction l as [| p t IH]; simpl; [reflexivity |].
  rewrite !de_cle_cons, IH. simpl.
  destruct (decide (_extraire_volume_cle p = v)); reflexivity.
Qed.

Lemma map_decorer_inj l l' : map decorer l = map decorer l' -> l = l'.
Proof.
  intros H. apply (f_equal (map snd)) in H.
  rewrite !map_map in H. simpl in H. rewrite !map_id in H. exact H.
Qed.

Lemma decroissant_decorer l :
  decroissant fst (map decorer l) -> decroissant _extraire_volume_cle l.
Proof.
  unfold decroissant. induction l as [| p t IH]; simpl; intros Hs.
  - constructor.
  - apply StronglySorted_inv in Hs. destruct Hs as [Ht Hp].
    constructor; [apply IH; exact Ht |].
    rewrite Forall_forall in Hp. rewrite Forall_forall. intros q Hq.
    apply (Hp (decorer q)). apply list_elem_of_In, in_map, list_elem_of_In, Hq.
Qed.

Lemma trier_perm produits : _trier_produits_volume produits ≡ₚ produits.
Proof.
  unfold _trier_produits_volume. cbv zeta.
  rewrite sort_reverse_perm, map_map. simpl. rewrite map_id. reflexivity.
Qed.

Lemma trier_decroissant produits :
  decroissant _extraire_volume_cle (_trier_produits_volume produits).
Proof.
  apply decroissant_decorer. rewrite <- sort_reverse_decorer.
  apply sort_reverse_decroissant.
Qed.

Lemma trier_stable produits :
  stable _extraire_volume_cle produits (_trier_produits_volume produits).
Proof.
  intros v. apply map_decorer_inj.
  rewrite <- !de_cle_decorer, <- sort_reverse_decorer.
  apply sort_reverse_stable.
Qed.

(** The result does not depend on the sorting algorithm: it is the only
    list in decreasing order of volume that keeps every group of equal
    volume in the order of the input. *)
Lemma trier_unique produits l :
  decroissant _extraire_volume_cle l ->
  stable _extraire_volume_cle produits l ->
  l = _trier_produits_volume produits.
Proof.
  intros Hs Hst. apply (tri_stable_unique _extraire_volume_cle).
  - exact Hs.
  - apply trier_decroissant.
  - intros v. rewrite trier_stable. symmetry. apply Hst.
Qed.

(** C5: [_trier_produits_volume] orders keys by decreasing extracted volume
    and is stable.  [["A1";"C2";"B3"]] gives [["B3";"C2";"A1"]] and
    [["X2";"Y2"]] is returned as it is.  For every input, the result is the
    input rearranged, it is in decreasing order of extracted volume, and
    the keys of each volume appear in their input order; in particular,
    whenever [x] comes before [y] in the input and both have the same
    extracted volume, [x] comes before [y] in the output. *)
Theorem trier_produits_volume_stable (produits : list string) (x y : string) :
  _trier_produits_volume ["A1"; "C2"; "B3"] = ["B3"; "C2"; "A1"]
  /\ _trier_produits_volume ["X2"; "Y2"] = ["X2"; "Y2"]
  /\ _trier_produits_volume produits ≡ₚ produits
  /\ decroissant _extraire_volume_cle (_trier_produits_volume produits)
  /\ stable _extraire_volume_cle produits (_trier_produits_volume produits)
  /\ ([x; y] `sublist_of` produits ->
      _extraire_volume_cle x = _extraire_volume_cle y ->
      [x; y] `sublist_of` _trier_produits_volume produits).
Proof.
  split; [reflexivity |]. split; [reflexivity |].
  split; [apply trier_perm |]. split; [apply trier_decroissant |].
  split; [apply trier_stable |].
  intros Hxy Hv.
  set (v := _extraire_volume_cle y).
  transitivity (de_cle _extraire_volume_cle v (_trier_produits_volume produits));
    [| apply de_cle_sublist].
  rewrite trier_stable.
  assert (H : de_cle _extraire_volume_cle v [x; y] = [x; y]).
  { rewrite !de_cle_cons. rewrite decide_True by exact Hv.
    rewrite decide_True by reflexivity. reflexivity. }
  rewrite <- H. apply sublist_de_cle. exact Hxy.
Qed.

Lemma trier_produits_volume_stable_witness :
  _trier_produits_volume ["A1"; "C2"; "B3"] = ["B3"; "C2"; "A1"]
  /\ _trier_produits_volume ["X2"; "Y2"] = ["X2"; "Y2"]
  /\ _trier_produits_volume ["X2"; "B3"; "A1"; "Y2"] ≡ₚ ["X2"; "B3"; "A1"; "Y2"]
  /\ decroissant _extraire_volume_cle
       (_trier_produits_volume ["X2"; "B3"; "A1"; "Y2"])
  /\ stable _extraire_volume_cle ["X2"; "B3"; "A1"; "Y2"]
       (_trier_produits_volume ["X2"; "B3"; "A1"; "Y2"])
  /\ ["X2"; "Y2"] `sublist_of` _trier_produits_volume ["X2"; "B3"; "A1"; "Y2"].
Proof.
  destruct (trier_produits_volume_stable ["X2"; "B3"; "A1"; "Y2"] "X2" "Y2")
    as (H1 & H2 & H3 & H4 & H5 & H6).
  split; [exact H1 |]. split; [exact H2 |]. split; [exact H3 |].
  split; [exact H4 |]. split; [exact H5 |].
  apply H6.
  - apply sublist_skip, sublist_cons, sublist_cons, sublist_skip, sublist_nil.
  - reflexivity.
Defined.

Example trier_sans_egalite :
  _trier_produits_volume ["A1"; "B3"] = ["B3"; "A1"]
  /\ _trier_produits_volume ["Z"; "A1"; ""; "C-2"] = ["A1"; "Z"; ""; "C-2"].
Proof. split; reflexivity. Qed.

(** ** Bounded deques *)

Section DequeFacts.
Context {A : Type}.
Implicit Types (d l : list A) (x : A) (m : nat).

Lemma append_libre m d x :
  (length d < m)%nat -> Deque.append (Some m) d x = (d ++ [x], None).
Proof.
  intros H. unfold Deque.append. rewrite length_app. simpl.
  destruct (Nat.ltb_spec m (length d + 1)); [lia | reflexivity].
Qed.

Lemma append_plein m d x :
  (length d = m)%nat ->
  Deque.append (Some m) d x = (tail (d ++ [x]), head (d ++ [x])).
Proof.
  intros H. unfold Deque.append. rewrite length_app. simpl.
  destruct (Nat.ltb_spec m (length d + 1)); [reflexivity | lia].
Qed.

Lemma append_borne m d x :
  (length d <= m)%nat -> (length (Deque.append (Some m) d x).1 <= m)%nat.
Proof.
  intros H. destruct (decide (length d = m)) as [He | Hne].
  - rewrite append_plein by exact He. simpl.
    destruct d as [| y t]; simpl in *; [lia |].
    rewrite length_app. simpl. lia.
  - rewrite append_libre by lia. simpl. rewrite length_app. simpl. lia.
Qed.

(** Building a bounded deque from a list that fits discards nothing. *)
Lemma extend_borne m l :
  forall d, (length d + length l <= m)%nat ->
    Deque.extend (Some m) d l = (d ++ l, []).
Proof.
  induction l as [| x t IH]; intros d H; cbn [Deque.extend]; simpl in H.
  - rewrite app_nil_r. reflexivity.
  - rewrite append_libre by lia.
    rewrite IH by (rewrite length_app; simpl; lia).
    rewrite <- app_assoc. reflexivity.
Qed.

Lemma of_list_borne m l :
  (length l <= m)%nat -> Deque.of_list (Some m) l = (l, []).
Proof. intros H. unfold Deque.of_list. apply extend_borne. simpl. lia. Qed.

End DequeFacts.

(** ** The alert journal *)

Lemma enregistrer_libre message w :
  (length (journal_alertes w) < MAX_LOG_SIZE)%nat ->
  _enregistrer_dans_log message w
  = Ok tt (set_journal (journal_alertes w ++ [message]) [] w).
Proof.
  intros H. unfold _enregistrer_dans_log, bind, lire, modifier, ret.
  destruct (Nat.eqb_spec (length (journal_alertes w)) MAX_LOG_SIZE); [lia |].
  rewrite append_libre by exact H. reflexivity.
Qed.

Lemma enregistrer_plein message w e reste :
  journal_alertes w = e :: reste ->
  length (journal_alertes w) = MAX_LOG_SIZE ->
  exists w1,
    _archiver_sur_disque e w = Ok tt w1
    /\ _enregistrer_dans_log message w
       = Ok tt (set_journal (reste ++ [message]) [e] w1).
Proof.
  intros Hj Hl. unfold _enregistrer_dans_log, bind, lire, modifier, ret.
  rewrite Hl, Nat.eqb_refl, Hj.
  assert (Ha : exists w1, _archiver_sur_disque e w = Ok tt w1
                 /\ journal_alertes w1 = journal_alertes w).
  { unfold _archiver_sur_disque, ecrire_archive, logging, modifier.
    destruct (disque w) as [| [] ?]; eexists; split; reflexivity. }
  destruct Ha as (w1 & Ha & Hj1). exists w1. split; [exact Ha |].
  rewrite Ha, Hj1, Hj.
  rewrite append_plein by (rewrite <- Hj; exact Hl). reflexivity.
Qed.

Ltac monade := unfold bind, ret, lire, modifier, raise, logging, stock_getitem in *.

Lemma fiable_tail d : fiable d -> fiable (tail d).
Proof. unfold fiable. destruct 1; simpl; [constructor | assumption]. Qed.

(** Archiving never raises; it leaves the controller alone, uses one write
    attempt, and on a reliable disk appends exactly the archive line. *)
Lemma archiver_spec e w :
  exists w1,
    _archiver_sur_disque e w = Ok tt w1
    /\ stock w1 = stock w
    /\ journal_alertes w1 = journal_alertes w
    /\ ejectees w1 = ejectees w
    /\ disque w1 = tail (disque w)
    /\ (fiable (disque w) ->
        archive w1 = archive w ++ [ligne_archive e] /\ console w1 = console w).
Proof.
  unfold _archiver_sur_disque, ecrire_archive. monade.
  destruct (disque w) as [| [] d] eqn:Hd; eexists;
    (split; [reflexivity |]); simpl; do 4 (split; [reflexivity |]);
    intros Hf; try (split; reflexivity).
  inversion Hf; discriminate.
Qed.

(** What one call of [_enregistrer_dans_log] does to a bounded journal:
    either there is room and the message is added, or the journal is full,
    its entry of index 0 is archived and discarded, and the message is
    added. *)
Lemma enregistrer_spec message w :
  journal_borne w ->
  exists w',
    _enregistrer_dans_log message w = Ok tt w'
    /\ stock w' = stock w
    /\ journal_borne w'
    /\ ((length (journal_alertes w) < MAX_LOG_SIZE)%nat
        /\ journal_alertes w' = journal_alertes w ++ [message]
        /\ ejectees w' = ejectees w /\ archive w' = archive w
        /\ disque w' = disque w /\ console w' = console w
        \/
        exists e reste,
          journal_alertes w = e :: reste
          /\ journal_alertes w !! 0%nat = Some e
          /\ journal_alertes w' = reste ++ [message]
          /\ ejectees w' = ejectees w ++ [e]
          /\ disque w' = tail (disque w)
          /\ (fiable (disque w) ->
              archive w' = archive w ++ [ligne_archive e]
              /\ console w' = console w)).
Proof.
  unfold journal_borne. intros Hb.
  destruct (decide (length (journal_alertes w) = MAX_LOG_SIZE)) as [He | Hne].
  - destruct (journal_alertes w) as [| e reste] eqn:Hj; [discriminate |].
    destruct (enregistrer_plein message w e reste Hj) as (w1 & Ha & ->).
    { rewrite Hj. exact He. }
    destruct (archiver_spec e w) as (w1' & Ha' & Hs & Hj1 & He1 & Hd1 & Hf).
    rewrite Ha in Ha'. injection Ha' as <-.
    eexists. split; [reflexivity |]. simpl.
    split; [exact Hs |]. split.
    { rewrite length_app. simpl in *. lia. }
    right. exists e, reste. rewrite He1, Hd1.
    repeat (split; [reflexivity |]). exact Hf.
  - rewrite enregistrer_libre by lia.
    eexists. split; [reflexivity |]. simpl.
    split; [reflexivity |]. split.
    { rewrite length_app. simpl. lia. }
    left. rewrite app_nil_r. repeat split. lia.
Qed.

(** Resolution on a bounded journal keeps exactly the entries that do not
    contain the key, and touches nothing else. *)
Lemma nettoyer_spec cle w :
  journal_borne w ->
  _nettoyer_alerte_resolue cle w
  = Ok tt (set_journal
             (filter (fun a => Py.contains cle a = false) (journal_alertes w))
             [] w).
Proof.
  unfold journal_borne. intros Hb. unfold _nettoyer_alerte_resolue. monade.
  rewrite of_list_borne; [reflexivity |].
  etransitivity; [apply length_filter | exact Hb].
Qed.

(** Without any assumption, the two journal operations still return. *)
Lemma enregistrer_total message w :
  exists w', _enregistrer_dans_log message w = Ok tt w' /\ stock w' = stock w.
Proof.
  unfold _enregistrer_dans_log. monade.
  destruct (length (journal_alertes w) =? MAX_LOG_SIZE)%nat eqn:He.
  - destruct (journal_alertes w) as [| e reste] eqn:Hj; [discriminate |].
    destruct (archiver_spec e w) as (w1 & -> & Hs & _).
    destruct (Deque.append _ _ _). eexists. split; [reflexivity |]. exact Hs.
  - destruct (Deque.append _ _ _). eexists. split; reflexivity.
Qed.

Lemma nettoyer_total cle w :
  exists w', _nettoyer_alerte_resolue cle w = Ok tt w' /\ stock w' = stock w.
Proof.
  unfold _nettoyer_alerte_resolue. monade.
  destruct (Deque.of_list _ _). eexists. split; reflexivity.
Qed.

(** ** The ledger *)

Lemma est_disponible_quantite cle w :
  _est_disponible cle w = (0 <? quantite cle w)%nat.
Proof.
  unfold _est_disponible, quantite. destruct (stock w !! cle); reflexivity.
Qed.

Lemma gerer_stock cle w w' :
  _gerer_alerte_seuil cle w = Ok tt w' -> stock w' = stock w.
Proof.
  unfold _gerer_alerte_seuil. monade.
  destruct (SEUIL_ALERTE <? quantite cle w)%nat.
  - destruct (nettoyer_total cle w) as (w1 & -> & Hs). congruence.
  - destruct (enregistrer_total (message_alerte cle (quantite cle w)) w)
      as (w1 & -> & Hs). congruence.
Qed.

(** Receiving a unit appends its volume to the queue of its key (created
    empty if the key is new) and changes nothing else. *)
Lemma ajouter_spec type_p vol w :
  let cle := _generer_cle_unique type_p vol in
  _ajouter_au_stock type_p vol w
  = Ok cle (set_stock (<[cle := default [] (stock w !! cle) ++ [vol]]> (stock w)) w).
Proof.
  intros cle. unfold _ajouter_au_stock. fold cle. monade.
  destruct (stock w !! cle) as [d |] eqn:Hk.
  - rewrite bool_decide_eq_true_2 by eauto. rewrite Hk. reflexivity.
  - rewrite bool_decide_eq_false_2 by (intros [? ?]; discriminate).
    simpl. rewrite lookup_insert_eq. unfold set_stock. simpl.
    rewrite insert_insert_eq. reflexivity.
Qed.

(** Taking a unit removes the head of the queue and yields it. *)
Lemma popleft_spec cle w v d :
  stock w !! cle = Some (v :: d) ->
  stock_popleft cle w = Ok v (set_stock (<[cle := d]> (stock w)) w).
Proof. intros H. unfold stock_popleft. monade. rewrite H. reflexivity. Qed.

Lemma disponible_tete cle w :
  _est_disponible cle w = true ->
  exists v d, stock w !! cle = Some (v :: d).
Proof.
  unfold _est_disponible. destruct (stock w !! cle) as [[| v d] |]; try discriminate.
  eauto.
Qed.

Lemma quantite_set_stock cle s w :
  quantite cle (set_stock s w) = length (default [] (s !! cle)).
Proof. reflexivity. Qed.

(** ** Properties kept by every operation *)

Section Preservation.
Variable P : Monde -> Prop.
Hypothesis P_stock : forall s w, P w -> P (set_stock s w).
Hypothesis P_console : forall n msg w, P w -> P (add_console n msg w).
Hypothesis P_enregistrer : forall message w, P w ->
  exists w', _enregistrer_dans_log message w = Ok tt w' /\ P w'.
Hypothesis P_nettoyer : forall cle w, P w ->
  exists w', _nettoyer_alerte_resolue cle w = Ok tt w' /\ P w'.

Lemma gerer_preserve cle w :
  P w -> exists w', _gerer_alerte_seuil cle w = Ok tt w' /\ P w'.
Proof.
  intros HP. unfold _gerer_alerte_seuil. monade.
  destruct (SEUIL_ALERTE <? quantite cle w)%nat; auto.
Qed.

Lemma ajout_preserve type_p volume w :
  P w -> exists w', traiter_ajout_produit type_p volume w = Ok tt w' /\ P w'.
Proof.
  intros HP. unfold traiter_ajout_produit, bind at 1.
  rewrite ajouter_spec. unfold bind.
  edestruct gerer_preserve as (w1 & -> & HP1); [apply P_stock, HP |].
  eexists. split; [reflexivity |]. apply P_console, HP1.
Qed.

Lemma boucle_preserve liste_cles :
  forall produits_trouves w, P w ->
    exists res w',
      boucle_recuperer liste_cles produits_trouves w = Ok res w' /\ P w'.
Proof.
  induction liste_cles as [| cle reste IH]; intros acc w HP; simpl.
  - exists acc, w. split; [reflexivity | exact HP].
  - unfold bind at 1, lire.
    destruct (_est_disponible cle w) eqn:Hd.
    + destruct (disponible_tete cle w Hd) as (v & d & Hk).
      unfold bind at 1. rewrite (popleft_spec cle w v d Hk).
      unfold bind at 1.
      edestruct gerer_preserve as (w1 & -> & HP1); [apply P_stock, HP |].
      apply IH, HP1.
    + unfold bind at 1, logging, modifier. apply IH, P_console, HP.
Qed.

Lemma commande_preserve commande w :
  P w -> exists res w', traiter_commande_colis commande w = Ok res w' /\ P w'.
Proof.
  intros HP. unfold traiter_commande_colis, _recuperer_produits, bind.
  destruct (boucle_preserve commande [] w HP) as (res & w' & -> & HP').
  eexists _, w'. split; [reflexivity | exact HP'].
Qed.

Lemma executer_op_preserve o w :
  P w -> exists w', executer_op o w = Ok tt w' /\ P w'.
Proof.
  intros HP. destruct o as [message | cle | type_p volume | commande]; simpl.
  - apply P_enregistrer, HP.
  - apply P_nettoyer, HP.
  - apply ajout_preserve, HP.
  - unfold bind. destruct (commande_preserve commande w HP) as (res & w' & -> & HP').
    exists w'. split; [reflexivity | exact HP'].
Qed.

Lemma executer_preserve ops :
  forall w, P w -> exists w', executer ops w = Ok tt w' /\ P w'.
Proof.
  induction ops as [| o reste IH]; intros w HP; simpl.
  - exists w. split; [reflexivity | exact HP].
  - unfold bind. destruct (executer_op_preserve o w HP) as (w1 & -> & HP1).
    apply IH, HP1.
Qed.

End Preservation.

(** ** Stock effects of the operations *)

Lemma gerer_total cle w :
  exists w', _gerer_alerte_seuil cle w = Ok tt w' /\ stock w' = stock w.
Proof.
  destruct (gerer_preserve (fun _ => True)) with (cle := cle) (w := w)
    as (w' & H & _); auto.
  - intros message w0 _. destruct (enregistrer_total message w0) as (? & ? & _); eauto.
  - intros cle0 w0 _. destruct (nettoyer_total cle0 w0) as (? & ? & _); eauto.
  - exists w'. split; [exact H | eapply gerer_stock, H].
Qed.

Lemma quantite_stock cle w w' :
  stock w' = stock w -> quantite cle w' = quantite cle w.
Proof. unfold quantite. intros ->. reflexivity. Qed.

Lemma ajout_total type_p volume w :
  let cle := _generer_cle_unique type_p volume in
  exists w',
    traiter_ajout_produit type_p volume w = Ok tt w'
    /\ stock w' = <[cle := default [] (stock w !! cle) ++ [volume]]> (stock w).
Proof.
  intros cle. unfold traiter_ajout_produit, bind at 1.
  rewrite ajouter_spec. fold cle. unfold bind.
  match goal with |- context [_gerer_alerte_seuil cle ?w0] =>
    destruct (gerer_total cle w0) as (w1 & -> & Hs) end.
  eexists. split; [reflexivity |]. simpl. rewrite Hs. reflexivity.
Qed.

Lemma occurrences_cons cle x l :
  occurrences cle (x :: l)
  = if decide (x = cle) then S (occurrences cle l) else occurrences cle l.
Proof.
  unfold occurrences. rewrite filter_cons.
  destruct (decide (x = cle)); reflexivity.
Qed.

Lemma occurrences_app cle l1 l2 :
  occurrences cle (l1 ++ l2) = (occurrences cle l1 + occurrences cle l2)%nat.
Proof. unfold occurrences. rewrite filter_app, length_app. reflexivity. Qed.

Lemma occurrences_perm cle l1 l2 :
  l1 ≡ₚ l2 -> occurrences cle l1 = occurrences cle l2.
Proof. unfold occurrences. intros ->. reflexivity. Qed.

(** The retrieval loop: each occurrence of a key is served from what the
    ledger holds at that moment. *)
Lemma boucle_compte K liste_cles :
  forall produits_trouves w,
    exists res w',
      boucle_recuperer liste_cles produits_trouves w = Ok res w'
      /\ occurrences K res
         = (occurrences K produits_trouves
            + Nat.min (occurrences K liste_cles) (quantite K w))%nat
      /\ (quantite K w' + Nat.min (occurrences K liste_cles) (quantite K w)
          = quantite K w)%nat.
Proof.
  induction liste_cles as [| cle reste IH]; intros acc w; simpl.
  - exists acc, w. split; [reflexivity |].
    change (occurrences K []) with 0%nat. lia.
  - unfold bind at 1, lire. rewrite occurrences_cons.
    destruct (_est_disponible cle w) eqn:Hd.
    + destruct (disponible_tete cle w Hd) as (v & d & Hk).
      unfold bind at 1. rewrite (popleft_spec cle w v d Hk).
      unfold bind at 1.
      match goal with |- context [_gerer_alerte_seuil cle ?w0] =>
        destruct (gerer_total cle w0) as (w1 & -> & Hs) end.
      destruct (IH (acc ++ [cle]) w1) as (res & w' & -> & Hres & Hq).
      exists res, w'. split; [reflexivity |].
      rewrite (quantite_stock K _ w1 Hs), quantite_set_stock in Hres, Hq.
      rewrite occurrences_app, occurrences_cons in Hres.
      change (occurrences K []) with 0%nat in Hres.
      assert (Hqw : quantite K w = length (default [] (stock w !! K)))
        by reflexivity.
      destruct (decide (cle = K)) as [-> | Hne].
      * rewrite lookup_insert_eq in Hres, Hq. rewrite Hk in Hqw.
        simpl in Hres, Hq, Hqw. rewrite Hqw. lia.
      * rewrite lookup_insert_ne in Hres, Hq by exact Hne.
        rewrite <- Hqw in Hres, Hq. lia.
    + unfold bind at 1, logging, modifier.
      destruct (IH acc (add_console WARNING (message_rupture cle) w))
        as (res & w' & -> & Hres & Hq).
      exists res, w'. split; [reflexivity |].
      change (quantite K (add_console WARNING (message_rupture cle) w))
        with (quantite K w) in *.
      destruct (decide (cle = K)) as [-> | Hne]; [| lia].
      rewrite est_disponible_quantite in Hd.
      apply Nat.ltb_ge in Hd. lia.
Qed.

(** An order for one key that the ledger holds: the head of its queue is
    taken and the key is returned. *)
Lemma commande_une cle w v d :
  stock w !! cle = Some (v :: d) ->
  exists w',
    traiter_commande_colis [cle] w = Ok [cle] w'
    /\ stock w' = <[cle := d]> (stock w).
Proof.
  intros Hk.
  unfold traiter_commande_colis, _recuperer_produits, bind at 1. simpl.
  unfold bind at 1, lire. unfold _est_disponible. rewrite Hk. simpl.
  unfold bind at 1. rewrite (popleft_spec cle w v d Hk). unfold bind at 1.
  match goal with |- context [_gerer_alerte_seuil cle ?w0] =>
    destruct (gerer_total cle w0) as (w1 & -> & Hs) end.
  exists w1. split; [reflexivity | exact Hs].
Qed.

(** ** Journal capacity *)

Lemma borne_enregistrer message w :
  journal_borne w ->
  exists w', _enregistrer_dans_log message w = Ok tt w' /\ journal_borne w'.
Proof.
  intros Hb. destruct (enregistrer_spec message w Hb) as (w' & H & _ & Hb' & _).
  eauto.
Qed.

Lemma borne_nettoyer cle w :
  journal_borne w ->
  exists w', _nettoyer_alerte_resolue cle w = Ok tt w' /\ journal_borne w'.
Proof.
  intros Hb. rewrite nettoyer_spec by exact Hb.
  eexists. split; [reflexivity |]. unfold journal_borne in *. simpl.
  etransitivity; [apply length_filter | exact Hb].
Qed.

Lemma borne_executer ops w :
  journal_borne w ->
  exists w', executer ops w = Ok tt w' /\ journal_borne w'.
Proof.
  apply executer_preserve; auto using borne_enregistrer, borne_nettoyer.
Qed.

(** C2: whatever calls are made (records, resolutions, receipts, orders),
    the run returns and the journal never holds more than [MAX_LOG_SIZE] = 3
    entries; a record either discards nothing, or discards
    exactly the entry that was at index 0 just before; a resolution
    discards nothing. *)
Theorem journal_capacite (ops : list Op) (message cle : string) (w : Monde) :
  journal_borne w ->
  MAX_LOG_SIZE = 3%nat
  /\ (forall fichier d,
        exists w', executer ops (init fichier d) = Ok tt w'
                   /\ (length (journal_alertes w') <= 3)%nat)
  /\ (exists w', executer ops w = Ok tt w'
                 /\ (length (journal_alertes w') <= 3)%nat)
  /\ (exists w',
        _enregistrer_dans_log message w = Ok tt w'
        /\ (length (journal_alertes w') <= 3)%nat
        /\ (ejectees w' = ejectees w
            /\ journal_alertes w' = journal_alertes w ++ [message]
            \/ exists e reste,
                 journal_alertes w !! 0%nat = Some e
                 /\ journal_alertes w = e :: reste
                 /\ ejectees w' = ejectees w ++ [e]
                 /\ journal_alertes w' = reste ++ [message]))
  /\ (exists w',
        _nettoyer_alerte_resolue cle w = Ok tt w'
        /\ (length (journal_alertes w') <= 3)%nat
        /\ ejectees w' = ejectees w).
Proof.
  intros Hb. split; [reflexivity |]. split; [| split; [| split]].
  - intros fichier d.
    destruct (borne_executer ops (init fichier d)) as (w' & H & Hb').
    { unfold journal_borne. simpl. lia. }
    eauto.
  - destruct (borne_executer ops w Hb) as (w' & H & Hb'). eauto.
  - destruct (enregistrer_spec message w Hb) as (w' & H & _ & Hb' & Hcas).
    exists w'. split; [exact H |]. split; [exact Hb' |].
    destruct Hcas as [(_ & Hj & He & _) | (e & reste & Hj & H0 & Hj' & He & _)].
    + left. split; assumption.
    + right. exists e, reste. repeat split; assumption.
  - rewrite nettoyer_spec by exact Hb. eexists. split; [reflexivity |].
    simpl. split; [| apply app_nil_r].
    etransitivity; [apply length_filter | exact Hb].
Qed.

Lemma journal_capacite_witness :
  MAX_LOG_SIZE = 3%nat
  /\ (forall fichier d,
        exists w',
          executer [OpAjout "A" 1; OpAjout "A" 1; OpCommande ["A1"]; OpAjout "B" 3]
            (init fichier d) = Ok tt w'
          /\ (length (journal_alertes w') <= 3)%nat)
  /\ (exists w',
        executer [OpAjout "A" 1; OpAjout "A" 1; OpCommande ["A1"]; OpAjout "B" 3]
          monde_exemple = Ok tt w'
        /\ (length (journal_alertes w') <= 3)%nat)
  /\ (exists w',
        _enregistrer_dans_log "m" monde_exemple = Ok tt w'
        /\ (length (journal_alertes w') <= 3)%nat
        /\ (ejectees w' = ejectees monde_exemple
            /\ journal_alertes w' = journal_alertes monde_exemple ++ ["m"]
            \/ exists e reste,
                 journal_alertes monde_exemple !! 0%nat = Some e
                 /\ journal_alertes monde_exemple = e :: reste
                 /\ ejectees w' = ejectees monde_exemple ++ [e]
                 /\ journal_alertes w' = reste ++ ["m"]))
  /\ (exists w',
        _nettoyer_alerte_resolue "A1" monde_exemple = Ok tt w'
        /\ (length (journal_alertes w') <= 3)%nat
        /\ ejectees w' = ejectees monde_exemple).
Proof.
  apply (journal_capacite _ "m" "A1" monde_exemple).
  unfold journal_borne. simpl. unfold MAX_LOG_SIZE. lia.
Defined.

(** ** Resolution *)

(** C6: on any journal (a deque of at most [MAX_LOG_SIZE] entries) and for
    any key, resolution returns; afterwards no entry contains the text of
    the key, and the journal is exactly the list of the former entries that
    do not contain it, in their former order.  Nothing is archived. *)
Theorem resolution_correcte (cle : string) (w : Monde) :
  journal_borne w ->
  exists w',
    _nettoyer_alerte_resolue cle w = Ok tt w'
    /\ Forall (fun a => Py.contains cle a = false) (journal_alertes w')
    /\ journal_alertes w'
       = filter (fun a => Py.contains cle a = false) (journal_alertes w)
    /\ journal_alertes w' `sublist_of` journal_alertes w
    /\ stock w' = stock w /\ archive w' = archive w.
Proof.
  intros Hb. rewrite nettoyer_spec by exact Hb.
  eexists. split; [reflexivity |]. simpl.
  split; [| split; [reflexivity | split; [apply sublist_filter | split; reflexivity]]].
  apply Forall_forall. intros a Ha. apply list_elem_of_filter in Ha. tauto.
Qed.

Lemma resolution_correcte_witness :
  exists w',
    _nettoyer_alerte_resolue "A1" monde_exemple = Ok tt w'
    /\ Forall (fun a => Py.contains "A1" a = false) (journal_alertes w')
    /\ journal_alertes w'
       = filter (fun a => Py.contains "A1" a = false)
           (journal_alertes monde_exemple)
    /\ journal_alertes w' `sublist_of` journal_alertes monde_exemple
    /\ stock w' = stock monde_exemple /\ archive w' = archive monde_exemple.
Proof.
  apply (resolution_correcte "A1" monde_exemple).
  unfold journal_borne. simpl. unfold MAX_LOG_SIZE. lia.
Defined.

Example resolution_exemple :
  exists w',
    _nettoyer_alerte_resolue "A1" monde_exemple = Ok tt w'
    /\ journal_alertes w' = [message_alerte "B3" 1].
Proof. eexists. split; reflexivity. Qed.

(** ** Archive *)

Lemma fidele_stock fichier s w :
  archive_fidele fichier w -> archive_fidele fichier (set_stock s w).
Proof. intros H. exact H. Qed.

Lemma fidele_console fichier n msg w :
  archive_fidele fichier w -> archive_fidele fichier (add_console n msg w).
Proof. intros H. exact H. Qed.

Lemma fidele_enregistrer fichier message w :
  archive_fidele fichier w ->
  exists w',
    _enregistrer_dans_log message w = Ok tt w' /\ archive_fidele fichier w'.
Proof.
  intros (Hb & Hf & Ha).
  destruct (enregistrer_spec message w Hb) as (w' & H & _ & Hb' & Hcas).
  exists w'. split; [exact H |]. unfold archive_fidele, archive_suit in *.
  destruct Hcas as [(_ & _ & He & Har & Hd & _) | (e & reste & _ & _ & _ & He & Hd & Har)].
  - rewrite He, Har, Hd. auto.
  - destruct (Har Hf) as [Har' _]. rewrite He, Har', Hd, Ha.
    split; [exact Hb' |]. split; [apply fiable_tail, Hf |].
    rewrite map_app, app_assoc. reflexivity.
Qed.

Lemma fidele_nettoyer fichier cle w :
  archive_fidele fichier w ->
  exists w',
    _nettoyer_alerte_resolue cle w = Ok tt w' /\ archive_fidele fichier w'.
Proof.
  intros (Hb & Hf & Ha).
  destruct (borne_nettoyer cle w Hb) as (w' & H & Hb').
  exists w'. split; [exact H |].
  rewrite nettoyer_spec in H by exact Hb. injection H as <-.
  unfold archive_fidele, archive_suit in *. simpl.
  rewrite app_nil_r. auto.
Qed.

Lemma fidele_executer fichier ops w :
  archive_fidele fichier w ->
  exists w', executer ops w = Ok tt w' /\ archive_fidele fichier w'.
Proof.
  apply executer_preserve;
    eauto using fidele_stock, fidele_console, fidele_enregistrer, fidele_nettoyer.
Qed.

(** When the write fails, the record still completes: the oldest entry
    leaves the journal, nothing reaches the archive, and the failure is
    logged as an error. *)
Lemma enregistrer_echec_disque message w e reste d :
  journal_alertes w = e :: reste ->
  length (journal_alertes w) = MAX_LOG_SIZE ->
  disque w = false :: d ->
  exists w',
    _enregistrer_dans_log message w = Ok tt w'
    /\ journal_alertes w' = reste ++ [message]
    /\ ejectees w' = ejectees w ++ [e]
    /\ archive w' = archive w
    /\ console w'
       = console w
         ++ [(ERROR, "Échec critique : Impossible d'écrire sur le disque.")].
Proof.
  intros Hj Hl Hd.
  destruct (enregistrer_plein message w e reste Hj Hl) as (w1 & Ha & ->).
  unfold _archiver_sur_disque, ecrire_archive in Ha. monade.
  rewrite Hd in Ha. injection Ha as <-.
  eexists. split; [reflexivity |]. repeat split.
Qed.

(** C7 fails as stated: on a disk that refuses the write, an entry is
    discarded from the journal and no line reaches the archive.  Four
    receipts of four new keys on an empty controller raise four alerts; the
    fourth discards the first, and the write fails. *)
Lemma archive_ecriture_perdue :
  exists w',
    executer [OpAjout "A" 1; OpAjout "B" 3; OpAjout "C" 2; OpAjout "D" 4]
      (init [] [false]) = Ok tt w'
    /\ ejectees w' = [message_alerte "A1" 1]
    /\ archive w' = []
    /\ archive w' <> [] ++ map ligne_archive (ejectees w').
Proof.
  eexists. split; [vm_compute; reflexivity |].
  split; [reflexivity |]. split; [reflexivity |]. discriminate.
Qed.

(** C7 (as amended): over any run in which every write to the archive
    succeeds, the text appended to the archive
    file is, in order, one line [[ARCHIVE] <message>\n] per entry discarded
    from the journal, with the message verbatim.  A record that discards an
    entry appends exactly its line, a record that discards nothing appends
    nothing, and a resolution appends nothing and discards nothing. *)
Theorem archive_ordre (ops : list Op) (fichier : list string)
    (message cle : string) (w : Monde) :
  journal_borne w -> fiable (disque w) ->
  archive w = fichier ++ map ligne_archive (ejectees w) ->
  (exists w',
     executer ops w = Ok tt w'
     /\ archive w' = fichier ++ map ligne_archive (ejectees w'))
  /\ ligne_archive message = "[ARCHIVE] " +:+ message +:+ Py.nl
  /\ (exists w',
        _enregistrer_dans_log message w = Ok tt w'
        /\ (ejectees w' = ejectees w /\ archive w' = archive w
            \/ exists e,
                 ejectees w' = ejectees w ++ [e]
                 /\ archive w' = archive w ++ [ligne_archive e]))
  /\ (exists w',
        _nettoyer_alerte_resolue cle w = Ok tt w'
        /\ ejectees w' = ejectees w /\ archive w' = archive w).
Proof.
  intros Hb Hf Ha. split; [| split; [reflexivity | split]].
  - destruct (fidele_executer fichier ops w) as (w' & H & _ & _ & Ha');
      [repeat split; assumption |].
    exists w'. split; [exact H | exact Ha'].
  - destruct (enregistrer_spec message w Hb) as (w' & H & _ & _ & Hcas).
    exists w'. split; [exact H |].
    destruct Hcas as [(_ & _ & He & Har & _) | (e & reste & _ & _ & _ & He & _ & Har)].
    + left. split; assumption.
    + right. exists e. split; [exact He |]. apply Har, Hf.
  - rewrite nettoyer_spec by exact Hb. eexists. split; [reflexivity |].
    simpl. split; [apply app_nil_r | reflexivity].
Qed.

Lemma archive_ordre_witness :
  (exists w',
     executer [OpAjout "C" 2; OpCommande ["A1"; "B3"]; OpNettoyer "C2"]
       monde_exemple = Ok tt w'
     /\ archive w' = [] ++ map ligne_archive (ejectees w'))
  /\ ligne_archive "m" = "[ARCHIVE] " +:+ "m" +:+ Py.nl
  /\ (exists w',
        _enregistrer_dans_log "m" monde_exemple = Ok tt w'
        /\ (ejectees w' = ejectees monde_exemple
            /\ archive w' = archive monde_exemple
            \/ exists e,
                 ejectees w' = ejectees monde_exemple ++ [e]
                 /\ archive w' = archive monde_exemple ++ [ligne_archive e]))
  /\ (exists w',
        _nettoyer_alerte_resolue "B3" monde_exemple = Ok tt w'
        /\ ejectees w' = ejectees monde_exemple
        /\ archive w' = archive monde_exemple).
Proof.
  apply (archive_ordre _ [] "m" "B3" monde_exemple).
  - unfold journal_borne. simpl. unfold MAX_LOG_SIZE. lia.
  - repeat constructor.
  - reflexivity.
Defined.

Example archive_exemple :
  exists w',
    executer [OpAjout "C" 2; OpCommande ["A1"; "B3"]; OpNettoyer "C2"]
      monde_exemple = Ok tt w'
    /\ journal_alertes w' = [message_alerte "A1" 1; message_alerte "B3" 0]
    /\ ejectees w'
       = [message_alerte "A1" 1; message_alerte "B3" 1; message_alerte "A12" 2]
    /\ archive w'
       = [ligne_archive (message_alerte "A1" 1);
          ligne_archive (message_alerte "B3" 1);
          ligne_archive (message_alerte "A12" 2)].
Proof. eexists. split; [vm_compute; reflexivity | repeat split; reflexivity]. Qed.

(** ** Orders *)

(** C8: an order for one key that the ledger has never seen (["Z9"] in
    particular) returns the empty list and sends exactly one backorder
    notice; the ledger, the journal and the archive are left as they were,
    and the key still has no entry. *)
Theorem backorder_sans_effet (cle : string) (w : Monde) :
  stock w !! cle = None ->
  exists w',
    traiter_commande_colis [cle] w = Ok [] w'
    /\ console w'
       = console w
         ++ [(WARNING, "RUPTURE: " +:+ cle +:+ " manquant (Mis en Backorder)")]
    /\ stock w' = stock w
    /\ journal_alertes w' = journal_alertes w
    /\ archive w' = archive w
    /\ ejectees w' = ejectees w
    /\ stock w' !! cle = None.
Proof.
  intros Hk.
  unfold traiter_commande_colis, _recuperer_produits, bind at 1. simpl.
  unfold bind at 1, lire. unfold _est_disponible. rewrite Hk.
  monade. eexists. split; [reflexivity |]. simpl.
  repeat (split; [reflexivity |]). exact Hk.
Qed.

Lemma backorder_sans_effet_witness :
  exists w',
    traiter_commande_colis ["Z9"] monde_exemple = Ok [] w'
    /\ console w'
       = console monde_exemple
         ++ [(WARNING, "RUPTURE: " +:+ "Z9" +:+ " manquant (Mis en Backorder)")]
    /\ stock w' = stock monde_exemple
    /\ journal_alertes w' = journal_alertes monde_exemple
    /\ archive w' = archive monde_exemple
    /\ ejectees w' = ejectees monde_exemple
    /\ stock w' !! "Z9" = None.
Proof. apply (backorder_sans_effet "Z9" monde_exemple). reflexivity. Defined.

(** C10: for every order and every key [K], the order returns; the quantity
    of [K] goes down by the smaller of the number of occurrences of [K] in
    the order and the quantity of [K] before the call, and [K] occurs that
    many times in the returned list. *)
Theorem commande_doublons (commande : list string) (K : string) (w : Monde) :
  exists res w',
    traiter_commande_colis commande w = Ok res w'
    /\ quantite K w'
       = (quantite K w - Nat.min (occurrences K commande) (quantite K w))%nat
    /\ occurrences K res = Nat.min (occurrences K commande) (quantite K w).
Proof.
  unfold traiter_commande_colis, _recuperer_produits, bind.
  destruct (boucle_compte K commande [] w) as (res & w' & -> & Hres & Hq).
  eexists _, w'. split; [reflexivity |]. split; [lia |].
  rewrite (occurrences_perm K _ _ (trier_perm res)), Hres. reflexivity.
Qed.

Example commande_doublons_exemple :
  exists w',
    traiter_commande_colis ["A1"; "B3"; "A1"; "B3"; "A1"] monde_exemple
    = Ok ["B3"; "A1"; "A1"] w'
    /\ quantite "A1" w' = 0%nat /\ quantite "B3" w' = 0%nat.
Proof. eexists. split; [vm_compute; reflexivity | split; reflexivity]. Qed.

(** ** FIFO *)

(** C1: let three receipts in a row, of volumes [v1], [v2], [v3], all go to
    the key [k], which has no unit on hand before.  Then the queue of [k]
    is [[v1; v2; v3]]; three orders for [k] each return [k] and take the
    head of the queue, which is [v1], then [v2], then [v3]; and the three
    [popleft] of these orders yield [v1], [v2], [v3] in that order. *)
Theorem fifo_par_cle (w : Monde) (k t1 t2 t3 : string) (v1 v2 v3 : Z) :
  quantite k w = 0%nat ->
  _generer_cle_unique t1 v1 = k ->
  _generer_cle_unique t2 v2 = k ->
  _generer_cle_unique t3 v3 = k ->
  exists w3,
    executer [OpAjout t1 v1; OpAjout t2 v2; OpAjout t3 v3] w = Ok tt w3
    /\ stock w3 !! k = Some [v1; v2; v3]
    /\ (exists w4 w5 w6,
          traiter_commande_colis [k] w3 = Ok [k] w4
          /\ stock w4 !! k = Some [v2; v3]
          /\ traiter_commande_colis [k] w4 = Ok [k] w5
          /\ stock w5 !! k = Some [v3]
          /\ traiter_commande_colis [k] w5 = Ok [k] w6
          /\ stock w6 !! k = Some [])
    /\ (exists u1 u2 u3,
          stock_popleft k w3 = Ok v1 u1
          /\ stock_popleft k u1 = Ok v2 u2
          /\ stock_popleft k u2 = Ok v3 u3
          /\ stock u3 !! k = Some []).
Proof.
  intros Hq H1 H2 H3.
  assert (H0 : default [] (stock w !! k) = []).
  { unfold quantite in Hq. destruct (default [] (stock w !! k)); [reflexivity | discriminate]. }
  simpl. unfold bind.
  destruct (ajout_total t1 v1 w) as (w1 & -> & Hs1). rewrite H1, H0 in Hs1.
  destruct (ajout_total t2 v2 w1) as (w2 & -> & Hs2).
  rewrite H2, Hs1, lookup_insert_eq in Hs2. simpl in Hs2.
  destruct (ajout_total t3 v3 w2) as (w3 & -> & Hs3).
  rewrite H3, Hs2, lookup_insert_eq in Hs3. simpl in Hs3.
  assert (Hk3 : stock w3 !! k = Some [v1; v2; v3])
    by (rewrite Hs3; apply lookup_insert_eq).
  exists w3. split; [reflexivity |]. split; [exact Hk3 |]. split.
  - destruct (commande_une k w3 v1 _ Hk3) as (w4 & Hc4 & Hs4).
    assert (Hk4 : stock w4 !! k = Some [v2; v3])
      by (rewrite Hs4; apply lookup_insert_eq).
    destruct (commande_une k w4 v2 _ Hk4) as (w5 & Hc5 & Hs5).
    assert (Hk5 : stock w5 !! k = Some [v3])
      by (rewrite Hs5; apply lookup_insert_eq).
    destruct (commande_une k w5 v3 _ Hk5) as (w6 & Hc6 & Hs6).
    exists w4, w5, w6. repeat (split; [assumption |]).
    rewrite Hs6. apply lookup_insert_eq.
  - eexists _, _, _.
    split; [apply (popleft_spec k w3 v1 _ Hk3) |].
    split; [apply (popleft_spec k _ v2 [v3]), lookup_insert_eq |].
    split; [apply (popleft_spec k _ v3 []), lookup_insert_eq |].
    apply lookup_insert_eq.
Qed.

Lemma fifo_par_cle_witness :
  exists w3,
    executer [OpAjout "A" 12; OpAjout "a1" 2; OpAjout "A" 12] (init [] [])
    = Ok tt w3
    /\ stock w3 !! "A12" = Some [12; 2; 12]
    /\ (exists w4 w5 w6,
          traiter_commande_colis ["A12"] w3 = Ok ["A12"] w4
          /\ stock w4 !! "A12" = Some [2; 12]
          /\ traiter_commande_colis ["A12"] w4 = Ok ["A12"] w5
          /\ stock w5 !! "A12" = Some [12]
          /\ traiter_commande_colis ["A12"] w5 = Ok ["A12"] w6
          /\ stock w6 !! "A12" = Some [])
    /\ (exists u1 u2 u3,
          stock_popleft "A12" w3 = Ok 12 u1
          /\ stock_popleft "A12" u1 = Ok 2 u2
          /\ stock_popleft "A12" u2 = Ok 12 u3
          /\ stock u3 !! "A12" = Some []).
Proof.
  apply (fifo_par_cle (init [] []) "A12" "A" "a1" "A" 12 2 12); reflexivity.
Defined.

(** ** Colliding keys *)

(** The journal operations do not read the ledger. *)
Lemma enregistrer_set_stock message w :
  exists x,
    _enregistrer_dans_log message w = Ok tt x
    /\ forall s,
         _enregistrer_dans_log message (set_stock s w) = Ok tt (set_stock s x).
Proof.
  destruct w as [st j ar co di ej].
  unfold _enregistrer_dans_log, _archiver_sur_disque, ecrire_archive, set_stock.
  monade. cbn -[Deque.append Nat.eqb MAX_LOG_SIZE].
  destruct (length j =? MAX_LOG_SIZE)%nat eqn:Hl.
  - destruct j as [| e reste]; [discriminate |].
    destruct di as [| [] d]; cbn -[Deque.append Nat.eqb MAX_LOG_SIZE];
      destruct (Deque.append (Some MAX_LOG_SIZE) (e :: reste) message);
      eexists; split; reflexivity.
  - cbn -[Deque.append Nat.eqb MAX_LOG_SIZE].
    destruct (Deque.append (Some MAX_LOG_SIZE) j message);
      eexists; split; reflexivity.
Qed.

Lemma nettoyer_set_stock cle w :
  exists x,
    _nettoyer_alerte_resolue cle w = Ok tt x
    /\ forall s,
         _nettoyer_alerte_resolue cle (set_stock s w) = Ok tt (set_stock s x).
Proof.
  destruct w as [st j ar co di ej].
  unfold _nettoyer_alerte_resolue, set_stock. monade.
  cbn -[Deque.of_list MAX_LOG_SIZE].
  destruct (Deque.of_list (Some MAX_LOG_SIZE)
              (filter (fun a => Py.contains cle a = false) j));
    eexists; split; reflexivity.
Qed.

(** Alert evaluation sees the ledger through the quantity of the key only. *)
Lemma gerer_set_stock cle s1 s2 w :
  length (default [] (s1 !! cle)) = length (default [] (s2 !! cle)) ->
  exists x,
    _gerer_alerte_seuil cle (set_stock s1 w) = Ok tt (set_stock s1 x)
    /\ _gerer_alerte_seuil cle (set_stock s2 w) = Ok tt (set_stock s2 x).
Proof.
  intros Hq. unfold _gerer_alerte_seuil, bind, lire.
  rewrite !quantite_set_stock, Hq.
  destruct (SEUIL_ALERTE <? _)%nat.
  - destruct (nettoyer_set_stock cle w) as (x & _ & H). exists x. split; apply H.
  - destruct (enregistrer_set_stock
                (message_alerte cle (length (default [] (s2 !! cle)))) w)
      as (x & _ & H).
    exists x. split; apply H.
Qed.

(** One turn of the retrieval loop. *)
Lemma boucle_cons cle reste acc w :
  boucle_recuperer (cle :: reste) acc w
  = if _est_disponible cle w then
      match stock_popleft cle w with
      | Ok _ w1 =>
          match _gerer_alerte_seuil cle w1 with
          | Ok _ w2 => boucle_recuperer reste (acc ++ [cle]) w2
          | Raise e => Raise e
          end
      | Raise e => Raise e
      end
    else boucle_recuperer reste acc (add_console WARNING (message_rupture cle) w).
Proof.
  cbn [boucle_recuperer]. unfold bind at 1, lire.
  destruct (_est_disponible cle w); reflexivity.
Qed.

Lemma indiscernables_set_stock s1 s2 w :
  memes_longueurs s1 s2 -> indiscernables (set_stock s1 w) (set_stock s2 w).
Proof. intros H. split; [exact H | repeat split]. Qed.

Lemma indiscernables_forme w1 w2 :
  indiscernables w1 w2 ->
  w1 = set_stock (stock w1) w2 /\ w2 = set_stock (stock w2) w2
  /\ memes_longueurs (stock w1) (stock w2).
Proof.
  intros (Hq & Hj & Ha & Hc & Hd & He).
  destruct w1, w2. simpl in *. subst. repeat split. exact Hq.
Qed.

Lemma boucle_indiscernables liste_cles :
  forall produits_trouves w s1 s2,
    memes_longueurs s1 s2 ->
    exists res x s1' s2',
      boucle_recuperer liste_cles produits_trouves (set_stock s1 w)
      = Ok res (set_stock s1' x)
      /\ boucle_recuperer liste_cles produits_trouves (set_stock s2 w)
         = Ok res (set_stock s2' x)
      /\ memes_longueurs s1' s2'.
Proof.
  induction liste_cles as [| cle reste IH]; intros acc w s1 s2 Hm.
  - exists acc, w, s1, s2. repeat split. exact Hm.
  - rewrite !boucle_cons.
    rewrite !est_disponible_quantite, !quantite_set_stock, (Hm cle).
    destruct (0 <? length (default [] (s2 !! cle)))%nat eqn:Hd.
    + pose proof (Hm cle) as Hc. apply Nat.ltb_lt in Hd.
      destruct (s1 !! cle) as [[| v1 d1] |] eqn:H1; simpl in Hc; try lia.
      destruct (s2 !! cle) as [[| v2 d2] |] eqn:H2; simpl in Hc, Hd; try lia.
      rewrite (popleft_spec cle (set_stock s1 w) v1 d1 H1).
      rewrite (popleft_spec cle (set_stock s2 w) v2 d2 H2).
      assert (Hm' : memes_longueurs (<[cle := d1]> s1) (<[cle := d2]> s2)).
      { intros k. destruct (decide (cle = k)) as [<- | Hne].
        - rewrite !lookup_insert_eq. simpl. lia.
        - rewrite !lookup_insert_ne by exact Hne. apply Hm. }
      destruct (gerer_set_stock cle _ _ w (Hm' cle)) as (x & E1 & E2).
      change (set_stock (<[cle := d1]> (stock (set_stock s1 w))) (set_stock s1 w))
        with (set_stock (<[cle := d1]> s1) w).
      change (set_stock (<[cle := d2]> (stock (set_stock s2 w))) (set_stock s2 w))
        with (set_stock (<[cle := d2]> s2) w).
      rewrite E1, E2. apply IH, Hm'.
    + apply (IH acc (add_console WARNING (message_rupture cle) w) s1 s2 Hm).
Qed.

Lemma commande_indiscernables commande w1 w2 :
  indiscernables w1 w2 ->
  exists res w1' w2',
    traiter_commande_colis commande w1 = Ok res w1'
    /\ traiter_commande_colis commande w2 = Ok res w2'
    /\ indiscernables w1' w2'.
Proof.
  intros H. destruct (indiscernables_forme w1 w2 H) as (E1 & E2 & Hm).
  destruct (boucle_indiscernables commande [] w2 _ _ Hm)
    as (res & x & s1' & s2' & B1 & B2 & Hm').
  rewrite <- E1 in B1. rewrite <- E2 in B2.
  unfold traiter_commande_colis, _recuperer_produits, bind.
  rewrite B1, B2.
  eexists _, _, _. split; [reflexivity |]. split; [reflexivity |].
  apply indiscernables_set_stock, Hm'.
Qed.

Lemma ajout_indiscernables t1 v1 t2 v2 w :
  _generer_cle_unique t1 v1 = _generer_cle_unique t2 v2 ->
  exists w1 w2,
    traiter_ajout_produit t1 v1 w = Ok tt w1
    /\ traiter_ajout_produit t2 v2 w = Ok tt w2
    /\ indiscernables w1 w2.
Proof.
  intros Hk. unfold traiter_ajout_produit, bind.
  rewrite !ajouter_spec. cbv zeta. rewrite <- Hk.
  set (cle := _generer_cle_unique t1 v1).
  set (s1 := <[cle := default [] (stock w !! cle) ++ [v1]]> (stock w)).
  set (s2 := <[cle := default [] (stock w !! cle) ++ [v2]]> (stock w)).
  assert (Hm : memes_longueurs s1 s2).
  { intros k. unfold s1, s2. destruct (decide (cle = k)) as [<- | Hne].
    - rewrite !lookup_insert_eq. simpl. rewrite !length_app. reflexivity.
    - rewrite !lookup_insert_ne by exact Hne. reflexivity. }
  destruct (gerer_set_stock cle s1 s2 w (Hm cle)) as (x & -> & ->).
  unfold logging, modifier. eexists _, _. split; [reflexivity |].
  split; [reflexivity |].
  apply (indiscernables_set_stock s1 s2
           (add_console INFO ("Transaction terminée pour " +:+ cle) x) Hm).
Qed.

(** C9: the pairs [("A1", 2)] and [("A", 12)] differ and have the same key
    ["A12"].  Received one after the other, their volumes 2 and 12 are
    appended to the same queue.  The states reached by receiving the one or
    the other are told apart by no later step: every key has the same
    quantity and the same availability in both, the journals and archives
    are the same (so alert evaluation did the same), and every order
    returns the same list in both and leaves states that again differ only
    by the stored volumes. *)
Theorem cles_en_collision (w : Monde) (commande : list string) :
  ("A1", 2) <> ("A", 12)
  /\ _generer_cle_unique "A1" 2 = "A12"
  /\ _generer_cle_unique "A" 12 = "A12"
  /\ (exists w',
        executer [OpAjout "A1" 2; OpAjout "A" 12] w = Ok tt w'
        /\ stock w' !! "A12" = Some (default [] (stock w !! "A12") ++ [2; 12]))
  /\ (exists w1 w2,
        traiter_ajout_produit "A1" 2 w = Ok tt w1
        /\ traiter_ajout_produit "A" 12 w = Ok tt w2
        /\ stock w1 !! "A12" = Some (default [] (stock w !! "A12") ++ [2])
        /\ stock w2 !! "A12" = Some (default [] (stock w !! "A12") ++ [12])
        /\ indiscernables w1 w2
        /\ (forall k, _est_disponible k w1 = _est_disponible k w2)
        /\ (exists res w1' w2',
              traiter_commande_colis commande w1 = Ok res w1'
              /\ traiter_commande_colis commande w2 = Ok res w2'
              /\ indiscernables w1' w2')).
Proof.
  split; [discriminate |]. split; [reflexivity |]. split; [reflexivity |].
  split.
  - simpl. unfold bind.
    destruct (ajout_total "A1" 2 w) as (w1 & -> & Hs1).
    destruct (ajout_total "A" 12 w1) as (w2 & -> & Hs2).
    exists w2. split; [reflexivity |].
    change (_generer_cle_unique "A1" 2) with "A12" in Hs1.
    change (_generer_cle_unique "A" 12) with "A12" in Hs2.
    rewrite Hs2, lookup_insert_eq, Hs1, lookup_insert_eq. simpl.
    rewrite <- app_assoc. reflexivity.
  - destruct (ajout_indiscernables "A1" 2 "A" 12 w) as (w1 & w2 & H1 & H2 & Hi);
      [reflexivity |].
    exists w1, w2. split; [exact H1 |]. split; [exact H2 |].
    destruct (ajout_total "A1" 2 w) as (w1' & H1' & Hs1).
    destruct (ajout_total "A" 12 w) as (w2' & H2' & Hs2).
    rewrite H1 in H1'. rewrite H2 in H2'.
    injection H1' as <-. injection H2' as <-.
    change (_generer_cle_unique "A1" 2) with "A12" in Hs1.
    change (_generer_cle_unique "A" 12) with "A12" in Hs2.
    split; [rewrite Hs1; apply lookup_insert_eq |].
    split; [rewrite Hs2; apply lookup_insert_eq |].
    split; [exact Hi |]. split.
    + intros k. rewrite !est_disponible_quantite.
      destruct Hi as [Hq _]. rewrite Hq. reflexivity.
    + apply commande_indiscernables, Hi.
Qed.

Example collision_exemple :
  exists w',
    executer [OpAjout "A1" 2; OpAjout "A" 12] (init [] []) = Ok tt w'
    /\ stock w' !! "A12" = Some [2; 12]
    /\ quantite "A12" w' = 2%nat
    /\ journal_alertes w' = [message_alerte "A12" 1; message_alerte "A12" 2].
Proof. eexists. split; [vm_compute; reflexivity | repeat split; reflexivity]. Qed.

(** ** End-to-end scenario *)

(** C3: with [MAX_LOG_SIZE] = 3 and [SEUIL_ALERTE] = 2, start from an empty
    controller (whatever the archive file and the disk).  After the receipts
    (A,1), (A,1), (A,1), (B,3), (B,3) the quantities of "A1" and "B3" are 3
    and 2, no journal entry contains "A1" and one contains "B3".  The order
    ["A1"; "B3"] then returns ["B3"; "A1"], leaves the quantities 2 and 1,
    and the journal holds an entry for each of the two keys. *)
Theorem scenario_bout_en_bout (fichier : list string) (d : list bool) :
  MAX_LOG_SIZE = 3%nat /\ SEUIL_ALERTE = 2%nat
  /\ exists w5,
       executer [OpAjout "A" 1; OpAjout "A" 1; OpAjout "A" 1;
                 OpAjout "B" 3; OpAjout "B" 3] (init fichier d) = Ok tt w5
       /\ quantite "A1" w5 = 3%nat /\ quantite "B3" w5 = 2%nat
       /\ journal_alertes w5 = [message_alerte "B3" 1; message_alerte "B3" 2]
       /\ Forall (fun a => Py.contains "A1" a = false) (journal_alertes w5)
       /\ Exists (fun a => Py.contains "B3" a = true) (journal_alertes w5)
       /\ exists w6,
            traiter_commande_colis ["A1"; "B3"] w5 = Ok ["B3"; "A1"] w6
            /\ quantite "A1" w6 = 2%nat /\ quantite "B3" w6 = 1%nat
            /\ journal_alertes w6
               = [message_alerte "B3" 2; message_alerte "A1" 2;
                  message_alerte "B3" 1]
            /\ Exists (fun a => Py.contains "A1" a = true) (journal_alertes w6)
            /\ Exists (fun a => Py.contains "B3" a = true) (journal_alertes w6).
Proof.
  split; [reflexivity |]. split; [reflexivity |].
  eexists. split; [vm_compute; reflexivity |].
  split; [reflexivity |]. split; [reflexivity |]. split; [reflexivity |].
  split; [repeat constructor |]. split; [left; reflexivity |].
  destruct d as [| [] d'].
  - eexists. split; [vm_compute; reflexivity |].
    split; [reflexivity |]. split; [reflexivity |]. split; [reflexivity |].
    split; [right; left; reflexivity | left; reflexivity].
  - eexists. split; [vm_compute; reflexivity |].
    split; [reflexivity |]. split; [reflexivity |]. split; [reflexivity |].
    split; [right; left; reflexivity | left; reflexivity].
  - eexists. split; [vm_compute; reflexivity |].
    split; [reflexivity |]. split; [reflexivity |]. split; [reflexivity |].
    split; [right; left; reflexivity | left; reflexivity].
Qed.

(* ===================================================================== *)
(** * Further properties of the code                                      *)
(* ===================================================================== *)

(** ** Keys *)

Lemma upper_char_idem c : Py.upper_char (Py.upper_char c) = Py.upper_char c.
Proof. destruct c as [[] [] [] [] [] [] [] []]; reflexivity. Qed.

Lemma upper_idem s : Py.upper (Py.upper s) = Py.upper s.
Proof.
  induction s as [| c t IH]; simpl; [reflexivity |].
  rewrite upper_char_idem, IH. reflexivity.
Qed.

(** X1: the type tag is case-insensitive: a tag and its upper-case form give
    the same key, so [traiter_ajout_produit] sends both to the same queue. *)
Theorem cle_insensible_casse (type_p : string) (vol : Z) (w : Monde) :
  _generer_cle_unique (Py.upper type_p) vol = _generer_cle_unique type_p vol
  /\ _ajouter_au_stock (Py.upper type_p) vol w = _ajouter_au_stock type_p vol w.
Proof.
  assert (H : _generer_cle_unique (Py.upper type_p) vol
              = _generer_cle_unique type_p vol).
  { unfold _generer_cle_unique. rewrite upper_idem. reflexivity. }
  split; [exact H |]. rewrite !ajouter_spec. cbv zeta. rewrite H. reflexivity.
Qed.

Lemma str_inj a b : Py.str a = Py.str b -> a = b.
Proof.
  intros H. apply (f_equal Py.int_literal) in H.
  rewrite !int_literal_str in H. congruence.
Qed.

Lemma est_marqueur_upper c : est_marqueur (Py.upper_char c) = est_marqueur c.
Proof. destruct c as [[] [] [] [] [] [] [] []]; reflexivity. Qed.

Lemma sans_marqueur_upper s : sans_marqueur (Py.upper s) = sans_marqueur s.
Proof.
  induction s as [| c t IH]; simpl; [reflexivity |].
  rewrite est_marqueur_upper, IH. reflexivity.
Qed.

Lemma string_of_digits_tete ds :
  ds <> [] -> Forall est_chiffre ds ->
  exists c t, Py.string_of_digits ds = String c t /\ est_marqueur c = true.
Proof.
  intros Hne Hall. destruct ds as [| d t]; [congruence |].
  inversion Hall as [| ? ? Hd _]; subst.
  exists (Py.digit_char d), (Py.string_of_digits t). split; [reflexivity |].
  par_chiffre Hd; reflexivity.
Qed.

(** The decimal text of an integer starts with a digit or a minus sign. *)
Lemma str_tete n :
  exists c t, Py.str n = String c t /\ est_marqueur c = true.
Proof.
  unfold Py.str. destruct (Z.ltb_spec n 0) as [Hneg | Hpos].
  - eexists _, _. split; reflexivity.
  - destruct (digits_of_spec n Hpos) as (Hne & Hall & _).
    apply string_of_digits_tete; assumption.
Qed.

Lemma coupe_unique a :
  forall b c x d y,
    sans_marqueur a = true -> sans_marqueur b = true ->
    est_marqueur c = true -> est_marqueur d = true ->
    a +:+ String c x = b +:+ String d y ->
    a = b /\ String c x = String d y.
Proof.
  induction a as [| a0 a IH]; intros [| b0 b] c x d y Ha Hb Hc Hd H; simpl in *.
  - split; [reflexivity | exact H].
  - injection H as -> _. rewrite Hc in Hb. discriminate.
  - injection H as -> _. rewrite Hd in Ha. discriminate.
  - injection H as -> H.
    apply andb_true_iff in Ha, Hb. destruct Ha as [_ Ha], Hb as [_ Hb].
    destruct (IH b c x d y Ha Hb Hc Hd H) as [-> E]. split; [reflexivity | exact E].
Qed.

(** X2: keys collide only through tags that hold a digit or a minus sign: on
    tags without any, equal keys mean equal upper-case tags and equal
    volumes. *)
Theorem cle_injective_sans_chiffre (t1 t2 : string) (v1 v2 : Z) :
  sans_marqueur t1 = true -> sans_marqueur t2 = true ->
  _generer_cle_unique t1 v1 = _generer_cle_unique t2 v2 ->
  Py.upper t1 = Py.upper t2 /\ v1 = v2.
Proof.
  intros H1 H2 Hk. unfold _generer_cle_unique in Hk.
  destruct (str_tete v1) as (c & x & E1 & Hc).
  destruct (str_tete v2) as (d & y & E2 & Hd).
  rewrite E1, E2 in Hk.
  rewrite <- sans_marqueur_upper in H1, H2.
  destruct (coupe_unique _ _ _ _ _ _ H1 H2 Hc Hd Hk) as [Ht Hs].
  split; [exact Ht |]. apply str_inj. rewrite E1, E2. exact Hs.
Qed.

Lemma cle_injective_sans_chiffre_witness :
  Py.upper "ab" = Py.upper "Ab" /\ 12 = 12.
Proof.
  apply (cle_injective_sans_chiffre "ab" "Ab" 12 12); reflexivity.
Defined.

(** X3: negative volumes are accepted and read back.  With a tag of one
    ASCII character, every volume of at most [Py.MAX_STR_DIGITS] = 4300
    digits (the integers that the interpreter converts to text), negative
    or not, is read back from
    its key: the key of [("A", -5)] is ["A-5"], whose volume is [-5]. *)
Theorem cle_roundtrip_volume_negatif (c : ascii) (vol : Z) :
  Py.isascii (String c "") = true ->
  - 10 ^ Py.MAX_STR_DIGITS < vol < 10 ^ Py.MAX_STR_DIGITS ->
  _extraire_volume_cle (_generer_cle_unique (String c "") vol) = vol
  /\ _generer_cle_unique "A" (-5) = "A-5".
Proof.
  intros _ Hvol. split; [| reflexivity].
  change (_generer_cle_unique (String c "") vol)
    with (String (Py.upper_char c) (Py.str vol)).
  unfold _extraire_volume_cle. cbn [Py.slice_from_1].
  rewrite int_str by exact Hvol. reflexivity.
Qed.

Lemma cle_roundtrip_volume_negatif_witness :
  _extraire_volume_cle (_generer_cle_unique "z" (-40)) = -40
  /\ _generer_cle_unique "A" (-5) = "A-5".
Proof.
  apply (cle_roundtrip_volume_negatif "z" (-40)).
  - reflexivity.
  - apply petit_volume. lia.
Defined.

(** ** What the journal operations leave alone *)

(** A record changes neither the ledger nor the past of the archive and of
    the console: it appends at most one archive line, and at most one
    console record, which is not a backorder notice. *)
Lemma enregistrer_cadre message w :
  exists w',
    _enregistrer_dans_log message w = Ok tt w'
    /\ stock w' = stock w
    /\ (exists lignes, archive w' = archive w ++ lignes)
    /\ (exists recs, console w' = console w ++ recs
                     /\ Forall (fun r => est_warning r = false) recs).
Proof.
  destruct w as [st j ar co di ej].
  unfold _enregistrer_dans_log, _archiver_sur_disque, ecrire_archive.
  monade. cbn -[Deque.append Nat.eqb MAX_LOG_SIZE].
  destruct (length j =? MAX_LOG_SIZE)%nat eqn:Hl.
  - destruct j as [| e reste]; [discriminate |].
    destruct di as [| [] d]; cbn -[Deque.append Nat.eqb MAX_LOG_SIZE];
      destruct (Deque.append (Some MAX_LOG_SIZE) (e :: reste) message);
      eexists; (split; [reflexivity |]); cbn; (split; [reflexivity |]).
    + split; [eexists; reflexivity | exists []; rewrite app_nil_r; auto].
    + split; [eexists; reflexivity | exists []; rewrite app_nil_r; auto].
    + split; [exists []; rewrite app_nil_r; reflexivity |].
      eexists. split; [reflexivity |]. repeat constructor.
  - cbn -[Deque.append Nat.eqb MAX_LOG_SIZE].
    destruct (Deque.append (Some MAX_LOG_SIZE) j message).
    eexists. split; [reflexivity |]. cbn. split; [reflexivity |].
    split; exists []; rewrite app_nil_r; auto.
Qed.

Lemma nettoyer_cadre cle w :
  exists w',
    _nettoyer_alerte_resolue cle w = Ok tt w'
    /\ stock w' = stock w /\ archive w' = archive w /\ console w' = console w.
Proof.
  unfold _nettoyer_alerte_resolue. monade.
  destruct (Deque.of_list _ _). eexists. split; [reflexivity |]. repeat split.
Qed.

Lemma gerer_cadre cle w :
  exists w',
    _gerer_alerte_seuil cle w = Ok tt w'
    /\ stock w' = stock w
    /\ (exists lignes, archive w' = archive w ++ lignes)
    /\ (exists recs, console w' = console w ++ recs
                     /\ Forall (fun r => est_warning r = false) recs).
Proof.
  unfold _gerer_alerte_seuil. monade.
  destruct (SEUIL_ALERTE <? quantite cle w)%nat.
  - destruct (nettoyer_cadre cle w) as (w' & H & Hs & Ha & Hc).
    exists w'. split; [exact H |]. split; [exact Hs |].
    split; [exists []; rewrite app_nil_r; exact Ha |].
    exists []. rewrite app_nil_r. auto.
  - apply enregistrer_cadre.
Qed.

Lemma ruptures_app_sans w recs c :
  c = console w ++ recs ->
  Forall (fun r => est_warning r = false) recs ->
  filter (fun r => est_warning r = true) c = ruptures w.
Proof.
  intros -> H. unfold ruptures. rewrite filter_app.
  assert (E : filter (fun r => est_warning r = true) recs = []).
  { induction H as [| r l Hr _ IH]; [reflexivity |].
    rewrite filter_cons_False by congruence. exact IH. }
  rewrite E, app_nil_r. reflexivity.
Qed.

(** ** No call raises *)

(** X4: whatever the state, and whatever the calls, no [KeyError] and no
    [IndexError] escapes: the guards of the code ([cle not in self.stock],
    [_est_disponible], the length test before [journal_alertes[0]]) cover
    every access. *)
Theorem aucune_exception (ops : list Op) (w : Monde) :
  exists w', executer ops w = Ok tt w'.
Proof.
  destruct (executer_preserve (fun _ => True)) with (ops := ops) (w := w)
    as (w' & H & _); auto.
  - intros message w0 _.
    destruct (enregistrer_total message w0) as (? & ? & _); eauto.
  - intros cle w0 _. destruct (nettoyer_total cle w0) as (? & ? & _); eauto.
  - eauto.
Qed.

(** ** Append-only logs *)

(** X5: whatever the calls and whatever the disk does, the archive file and the
    console only grow: what was there before a run is still there, in the
    same place, after it. *)
Theorem journaux_croissants (ops : list Op) (w : Monde) :
  exists w',
    executer ops w = Ok tt w'
    /\ archive w `prefix_of` archive w'
    /\ console w `prefix_of` console w'.
Proof.
  apply (executer_preserve
           (fun w' => archive w `prefix_of` archive w'
                      /\ console w `prefix_of` console w')).
  - intros s w0 H. exact H.
  - intros n msg w0 [Ha Hc]. split; [exact Ha |].
    simpl. apply prefix_app_r, Hc.
  - intros message w0 [Ha Hc].
    destruct (enregistrer_cadre message w0)
      as (w' & H & _ & (lignes & Hl) & (recs & Hr & _)).
    exists w'. split; [exact H |]. rewrite Hl, Hr.
    split; apply prefix_app_r; assumption.
  - intros cle w0 [Ha Hc].
    destruct (nettoyer_cadre cle w0) as (w' & H & _ & Hl & Hr).
    exists w'. split; [exact H |]. rewrite Hl, Hr. split; assumption.
  - split; reflexivity.
Qed.

(** ** Orders and the ledger *)

Lemma boucle_indisponible commande :
  forall acc w,
    Forall (fun cle => quantite cle w = 0%nat) commande ->
    boucle_recuperer commande acc w = Ok acc (apres_ruptures commande w).
Proof.
  induction commande as [| cle reste IH]; intros acc w Hq.
  - destruct w. unfold apres_ruptures. simpl. rewrite app_nil_r. reflexivity.
  - inversion Hq as [| ? ? Hc Hr]; subst.
    rewrite boucle_cons, est_disponible_quantite, Hc. simpl.
    rewrite IH by exact Hr. unfold apres_ruptures. simpl.
    rewrite <- app_assoc. reflexivity.
Qed.

(** X6: an order made only of keys without any unit on hand (never received,
    or received and used up: the entry of a used-up key stays, with an empty
    queue) returns the empty list; it sends one backorder notice per
    requested key, in the order of the request, and changes nothing else. *)
Theorem commande_tout_indisponible (commande : list string) (w : Monde) :
  Forall (fun cle => quantite cle w = 0%nat) commande ->
  traiter_commande_colis commande w = Ok [] (apres_ruptures commande w)
  /\ stock (apres_ruptures commande w) = stock w
  /\ journal_alertes (apres_ruptures commande w) = journal_alertes w
  /\ archive (apres_ruptures commande w) = archive w.
Proof.
  intros Hq. split; [| repeat split].
  unfold traiter_commande_colis, _recuperer_produits, bind.
  rewrite boucle_indisponible by exact Hq. reflexivity.
Qed.

Lemma commande_tout_indisponible_witness :
  traiter_commande_colis ["Z9"; "A1"; "Z9"]
    (set_stock (<["A1" := []]> ∅) monde_exemple)
  = Ok [] (apres_ruptures ["Z9"; "A1"; "Z9"]
             (set_stock (<["A1" := []]> ∅) monde_exemple))
  /\ stock (apres_ruptures ["Z9"; "A1"; "Z9"]
              (set_stock (<["A1" := []]> ∅) monde_exemple))
     = stock (set_stock (<["A1" := []]> ∅) monde_exemple)
  /\ journal_alertes (apres_ruptures ["Z9"; "A1"; "Z9"]
                        (set_stock (<["A1" := []]> ∅) monde_exemple))
     = journal_alertes (set_stock (<["A1" := []]> ∅) monde_exemple)
  /\ archive (apres_ruptures ["Z9"; "A1"; "Z9"]
                (set_stock (<["A1" := []]> ∅) monde_exemple))
     = archive (set_stock (<["A1" := []]> ∅) monde_exemple).
Proof.
  apply (commande_tout_indisponible ["Z9"; "A1"; "Z9"]
           (set_stock (<["A1" := []]> ∅) monde_exemple)).
  repeat constructor.
Defined.

Lemma gerer_ruptures cle w :
  exists w',
    _gerer_alerte_seuil cle w = Ok tt w'
    /\ stock w' = stock w /\ ruptures w' = ruptures w.
Proof.
  destruct (gerer_cadre cle w) as (w' & H & Hs & _ & (recs & Hc & Hr)).
  exists w'. split; [exact H |]. split; [exact Hs |].
  unfold ruptures at 1. eapply ruptures_app_sans; eassumption.
Qed.

Lemma ruptures_add_warning msg w :
  ruptures (add_console WARNING msg w) = ruptures w ++ [(WARNING, msg)].
Proof.
  unfold ruptures. simpl. rewrite filter_app. reflexivity.
Qed.

Lemma boucle_servis commande :
  forall acc w,
    exists servis w',
      boucle_recuperer commande acc w = Ok (acc ++ servis) w'
      /\ servis `sublist_of` commande
      /\ (length servis + length (ruptures w')
          = length commande + length (ruptures w))%nat.
Proof.
  induction commande as [| cle reste IH]; intros acc w.
  - exists [], w. simpl. rewrite app_nil_r. repeat split. constructor.
  - rewrite boucle_cons. destruct (_est_disponible cle w) eqn:Hd.
    + destruct (disponible_tete cle w Hd) as (v & d & Hk).
      rewrite (popleft_spec cle w v d Hk).
      match goal with |- context [_gerer_alerte_seuil cle ?w0] =>
        destruct (gerer_ruptures cle w0) as (w1 & -> & _ & Hr1) end.
      destruct (IH (acc ++ [cle]) w1) as (servis & w' & -> & Hsub & Hlen).
      exists (cle :: servis), w'. rewrite <- app_assoc. split; [reflexivity |].
      split; [apply sublist_skip, Hsub |].
      rewrite Hr1 in Hlen.
      change (ruptures (set_stock (<[cle:=d]> (stock w)) w)) with (ruptures w) in Hlen.
      cbn [length]. lia.
    + destruct (IH acc (add_console WARNING (message_rupture cle) w))
        as (servis & w' & -> & Hsub & Hlen).
      exists servis, w'. split; [reflexivity |].
      split; [apply sublist_cons, Hsub |].
      rewrite ruptures_add_warning, length_app in Hlen.
      cbn [length] in Hlen |- *. lia.
Qed.

(** X7: every requested key is either served or reported: the keys taken by
    [_recuperer_produits] are a sub-list of the order, in the order of the
    request, and the number of keys served plus the number of backorder
    notices sent is the length of the order. *)
Theorem recuperer_servis_ou_rupture (commande : list string) (w : Monde) :
  exists servis w',
    _recuperer_produits commande w = Ok servis w'
    /\ servis `sublist_of` commande
    /\ (length servis + (length (ruptures w') - length (ruptures w))
        = length commande)%nat.
Proof.
  unfold _recuperer_produits.
  destruct (boucle_servis commande [] w) as (servis & w' & H & Hsub & Hlen).
  exists servis, w'. split; [exact H |]. split; [exact Hsub |].
  pose proof (sublist_length _ _ Hsub). simpl in Hlen. lia.
Qed.

Lemma boucle_fifo commande :
  forall acc w,
    exists res w',
      boucle_recuperer commande acc w = Ok res w'
      /\ forall K, stock w' !! K
                   = drop (occurrences K commande) <$> (stock w !! K).
Proof.
  induction commande as [| cle reste IH]; intros acc w.
  - exists acc, w. split; [reflexivity |]. intros K.
    change (occurrences K []) with 0%nat.
    destruct (stock w !! K); reflexivity.
  - rewrite boucle_cons. destruct (_est_disponible cle w) eqn:Hd.
    + destruct (disponible_tete cle w Hd) as (v & d & Hk).
      rewrite (popleft_spec cle w v d Hk).
      match goal with |- context [_gerer_alerte_seuil cle ?w0] =>
        destruct (gerer_total cle w0) as (w1 & -> & Hs) end.
      destruct (IH (acc ++ [cle]) w1) as (res & w' & -> & HK).
      exists res, w'. split; [reflexivity |]. intros K.
      rewrite HK, Hs, occurrences_cons. simpl.
      destruct (decide (cle = K)) as [<- | Hne].
      * rewrite lookup_insert_eq, Hk. reflexivity.
      * rewrite lookup_insert_ne by exact Hne. reflexivity.
    + destruct (IH acc (add_console WARNING (message_rupture cle) w))
        as (res & w' & -> & HK).
      exists res, w'. split; [reflexivity |]. intros K.
      rewrite HK, occurrences_cons. simpl.
      destruct (decide (cle = K)) as [<- | Hne]; [| reflexivity].
      unfold _est_disponible in Hd.
      destruct (stock w !! cle) as [[| v d] |]; try discriminate; simpl;
        rewrite ?drop_nil; reflexivity.
Qed.

(** X8: FIFO for any order: after [traiter_commande_colis], the queue of every
    key is its former queue without its first [n] units, [n] being the
    number of times the key is requested (a queue shorter than [n] is left
    empty).  So units leave in arrival order whatever the other keys of the
    order, keys that are not requested keep their queue ([n] = 0), and no
    entry of the ledger is created or deleted. *)
Theorem commande_fifo (commande : list string) (w : Monde) :
  exists res w',
    traiter_commande_colis commande w = Ok res w'
    /\ (forall K, stock w' !! K
                  = drop (occurrences K commande) <$> (stock w !! K))
    /\ dom (stock w') = dom (stock w).
Proof.
  unfold traiter_commande_colis, _recuperer_produits, bind.
  destruct (boucle_fifo commande [] w) as (res & w' & -> & HK).
  eexists _, w'. split; [reflexivity |]. split; [exact HK |].
  apply set_eq. intros K. rewrite !elem_of_dom, HK.
  destruct (stock w !! K); simpl; split; intros [? ?]; try discriminate; eauto.
Qed.

(** ** Receipts *)


(** ** Ledger entries are never deleted *)

(** X10: whatever the calls, a key that has an entry in the ledger still has one
    afterwards (with an empty queue once its units are used up). *)
Theorem entrees_conservees (ops : list Op) (w : Monde) :
  exists w', executer ops w = Ok tt w' /\ dom (stock w) ⊆ dom (stock w').
Proof.
  revert w. induction ops as [| o reste IH]; intros w.
  - exists w. split; [reflexivity | reflexivity].
  - cbn [executer]. unfold bind.
    assert (H1 : exists w1, executer_op o w = Ok tt w1
                            /\ dom (stock w) ⊆ dom (stock w1)).
    { destruct o as [message | cle | t v | commande]; cbn [executer_op].
      - destruct (enregistrer_total message w) as (w1 & H & Hs).
        exists w1. split; [exact H |]. rewrite Hs. reflexivity.
      - destruct (nettoyer_total cle w) as (w1 & H & Hs).
        exists w1. split; [exact H |]. rewrite Hs. reflexivity.
      - destruct (ajout_total t v w) as (w1 & H & Hs).
        exists w1. split; [exact H |]. rewrite Hs, dom_insert_L. set_solver.
      - unfold bind.
        destruct (commande_fifo commande w) as (res & w1 & -> & _ & Hd).
        exists w1. split; [reflexivity |]. rewrite Hd. reflexivity. }
    destruct H1 as (w1 & -> & Hd1).
    destruct (IH w1) as (w' & H & Hd). exists w'. split; [exact H |].
    etransitivity; eassumption.
Qed.

(** ** Alert policy *)

(** On a bounded journal, alert evaluation for a key either clears the
    journal of every entry that contains the key (quantity above the
    threshold), or puts the alert for the current quantity at the end of the
    journal (quantity at or below the threshold). *)
Lemma gerer_politique cle w :
  journal_borne w ->
  exists w',
    _gerer_alerte_seuil cle w = Ok tt w'
    /\ stock w' = stock w
    /\ journal_borne w'
    /\ if (SEUIL_ALERTE <? quantite cle w)%nat
       then journal_alertes w'
            = filter (fun a => Py.contains cle a = false) (journal_alertes w)
       else last (journal_alertes w')
            = Some (message_alerte cle (quantite cle w)).
Proof.
  intros Hb. unfold _gerer_alerte_seuil. monade.
  destruct (SEUIL_ALERTE <? quantite cle w)%nat.
  - destruct (borne_nettoyer cle w Hb) as (w' & H & Hb').
    exists w'. split; [exact H |].
    rewrite nettoyer_spec in H by exact Hb. injection H as <-.
    repeat split. exact Hb'.
  - destruct (enregistrer_spec (message_alerte cle (quantite cle w)) w Hb)
      as (w' & H & Hs & Hb' & Hcas).
    exists w'. split; [exact H |]. split; [exact Hs |]. split; [exact Hb' |].
    destruct Hcas as [(_ & -> & _) | (e & reste & _ & _ & -> & _)];
      apply last_snoc.
Qed.



(** X12: an order for one key on hand takes one unit and re-evaluates the key:
    if more than [SEUIL_ALERTE] = 2 units are left no journal entry contains
    the key, otherwise the last journal entry is the alert for the key with
    the quantity left, zero included. *)
Theorem commande_alerte (cle : string) (w : Monde) :
  journal_borne w -> (0 < quantite cle w)%nat ->
  exists w',
    traiter_commande_colis [cle] w = Ok [cle] w'
    /\ S (quantite cle w') = quantite cle w
    /\ if (4 <=? quantite cle w)%nat
       then Forall (fun a => Py.contains cle a = false) (journal_alertes w')
       else last (journal_alertes w')
            = Some (message_alerte cle (quantite cle w - 1)).
Proof.
  intros Hb Hq.
  assert (Hd : _est_disponible cle w = true).
  { rewrite est_disponible_quantite. apply Nat.ltb_lt, Hq. }
  destruct (disponible_tete cle w Hd) as (v & d & Hk).
  unfold traiter_commande_colis, _recuperer_produits, bind at 1.
  rewrite boucle_cons, Hd, (popleft_spec cle w v d Hk).
  set (w0 := set_stock _ w).
  assert (Hqw : quantite cle w = S (length d)).
  { unfold quantite. rewrite Hk. reflexivity. }
  assert (Hq0 : quantite cle w0 = length d).
  { unfold w0. rewrite quantite_set_stock, lookup_insert_eq. reflexivity. }
  destruct (gerer_politique cle w0 Hb) as (w1 & -> & Hs & _ & Hpol).
  exists w1. split; [reflexivity |].
  rewrite (quantite_stock cle w0 w1 Hs), Hq0, Hqw.
  split; [reflexivity |].
  rewrite Hq0 in Hpol.
  replace (S (length d) - 1)%nat with (length d) by lia.
  change (4 <=? S (length d))%nat with (SEUIL_ALERTE <? length d)%nat.
  destruct (SEUIL_ALERTE <? length d)%nat; [| exact Hpol].
  rewrite Hpol. apply Forall_forall. intros a Ha.
  apply list_elem_of_filter in Ha. tauto.
Qed.

Lemma commande_alerte_witness :
  exists w',
    traiter_commande_colis ["B3"] monde_exemple = Ok ["B3"] w'
    /\ S (quantite "B3" w') = quantite "B3" monde_exemple
    /\ if (4 <=? quantite "B3" monde_exemple)%nat
       then Forall (fun a => Py.contains "B3" a = false) (journal_alertes w')
       else last (journal_alertes w')
            = Some (message_alerte "B3" (quantite "B3" monde_exemple - 1)).
Proof.
  apply (commande_alerte "B3" monde_exemple).
  - unfold journal_borne. simpl. unfold MAX_LOG_SIZE. lia.
  - vm_compute. lia.
Defined.

(** ** Matching by substring *)

Lemma startswith_app s sub b :
  Py.startswith s sub = true -> Py.startswith (s +:+ b) sub = true.
Proof.
  revert s. induction sub as [| a p IH]; intros s H.
  - destruct (s +:+ b); reflexivity.
  - destruct s as [| c t]; [discriminate |]. simpl in *.
    apply andb_true_iff in H. destruct H as [-> H]. simpl. apply IH, H.
Qed.

Lemma contains_vide s : Py.contains "" s = true.
Proof. destruct s; reflexivity. Qed.

Lemma contains_app_r sub s b :
  Py.contains sub s = true -> Py.contains sub (s +:+ b) = true.
Proof.
  induction s as [| c t IH]; intros H.
  - simpl in H. rewrite orb_false_r in H.
    destruct sub; [apply contains_vide | discriminate].
  - cbn [Py.contains] in H. apply orb_true_iff in H.
    change (String c t +:+ b) with (String c (t +:+ b)). cbn [Py.contains].
    destruct H as [H | H].
    + change (String c (t +:+ b)) with (String c t +:+ b).
      rewrite (startswith_app _ _ b H). reflexivity.
    + rewrite (IH H). apply orb_true_r.
Qed.

Lemma contains_app_l sub a s :
  Py.contains sub s = true -> Py.contains sub (a +:+ s) = true.
Proof.
  intros H. induction a as [| c t IH]; [exact H |].
  change (String c t +:+ s) with (String c (t +:+ s)). cbn [Py.contains].
  rewrite IH. apply orb_true_r.
Qed.

Lemma startswith_refl s : Py.startswith s s = true.
Proof.
  induction s as [| c t IH]; [reflexivity |]. simpl.
  rewrite Ascii.eqb_refl. exact IH.
Qed.

Lemma contains_refl s : Py.contains s s = true.
Proof. destruct s; simpl; [reflexivity |]. rewrite Ascii.eqb_refl, startswith_refl. reflexivity. Qed.

Lemma contains_message_alerte k1 k2 q :
  Py.contains k1 k2 = true -> Py.contains k1 (message_alerte k2 q) = true.
Proof.
  intros H. unfold message_alerte. apply contains_app_l, contains_app_r, H.
Qed.

(** X13: resolution matches by substring: the alerts of a key always contain the
    key, and they contain every key that is a substring of it.  So the
    resolution of a key [k1] also removes the alerts of every key [k2] whose
    text contains [k1] (resolving "A1" removes the alerts of "A12"). *)
Theorem resolution_sous_chaine (k1 k2 : string) (q : nat) (w : Monde) :
  journal_borne w ->
  Py.contains k1 k2 = true ->
  Py.contains k2 (message_alerte k2 q) = true
  /\ Py.contains k1 (message_alerte k2 q) = true
  /\ exists w',
       _nettoyer_alerte_resolue k1 w = Ok tt w'
       /\ message_alerte k2 q ∉ journal_alertes w'.
Proof.
  intros Hb Hc.
  split; [apply contains_message_alerte, contains_refl |].
  split; [apply contains_message_alerte, Hc |].
  rewrite nettoyer_spec by exact Hb. eexists. split; [reflexivity |].
  simpl. rewrite list_elem_of_filter. intros [Hn _].
  rewrite (contains_message_alerte k1 k2 q Hc) in Hn. discriminate.
Qed.

Lemma resolution_sous_chaine_witness :
  Py.contains "A12" (message_alerte "A12" 2) = true
  /\ Py.contains "A1" (message_alerte "A12" 2) = true
  /\ exists w',
       _nettoyer_alerte_resolue "A1" monde_exemple = Ok tt w'
       /\ message_alerte "A12" 2 ∉ journal_alertes w'.
Proof.
  apply (resolution_sous_chaine "A1" "A12" 2 monde_exemple).
  - unfold journal_borne. simpl. unfold MAX_LOG_SIZE. lia.
  - reflexivity.
Defined.

(** ** The journal as a sliding window *)

(** The two cases of a record on a bounded journal, with their lengths. *)
Lemma enregistrer_cas message w :
  journal_borne w ->
  exists w',
    _enregistrer_dans_log message w = Ok tt w'
    /\ journal_borne w'
    /\ ((length (journal_alertes w) < 3)%nat
        /\ journal_alertes w' = journal_alertes w ++ [message]
        /\ ejectees w' = ejectees w
        \/ exists e reste,
             journal_alertes w = e :: reste /\ length reste = 2%nat
             /\ journal_alertes w' = reste ++ [message]
             /\ ejectees w' = ejectees w ++ [e]).
Proof.
  intros Hb. destruct (enregistrer_spec message w Hb) as (w' & H & _ & Hb' & _).
  exists w'. split; [exact H |]. split; [exact Hb' |].
  unfold journal_borne, MAX_LOG_SIZE in Hb.
  destruct (decide (length (journal_alertes w) = 3%nat)) as [He | Hne].
  - right. destruct (journal_alertes w) as [| e reste] eqn:Hj; [discriminate |].
    destruct (enregistrer_plein message w e reste Hj) as (w1 & Ha & H1).
    { rewrite Hj. exact He. }
    destruct (archiver_spec e w) as (w1' & Ha' & _ & _ & He1 & _).
    rewrite Ha in Ha'. injection Ha' as <-.
    rewrite H in H1. injection H1 as ->.
    exists e, reste. simpl in He. simpl. rewrite He1.
    repeat split. lia.
  - left. rewrite enregistrer_libre in H by (unfold MAX_LOG_SIZE; lia).
    injection H as <-. simpl. rewrite app_nil_r. repeat split. lia.
Qed.

(** X14: after a series of records on a journal [j] of at most three entries,
    the journal holds the last three of [j] followed by the new messages,
    and the entries discarded on the way are all the earlier ones, oldest
    first. *)
Theorem journal_fenetre (messages : list string) (w : Monde) :
  journal_borne w ->
  exists w',
    executer (enregistrements messages) w = Ok tt w'
    /\ journal_alertes w'
       = drop (length (journal_alertes w ++ messages) - 3)
           (journal_alertes w ++ messages)
    /\ ejectees w'
       = ejectees w
         ++ take (length (journal_alertes w ++ messages) - 3)
              (journal_alertes w ++ messages).
Proof.
  revert w. induction messages as [| m reste IH]; intros w Hb.
  - exists w. split; [reflexivity |]. rewrite !app_nil_r.
    unfold journal_borne, MAX_LOG_SIZE in Hb.
    replace (length (journal_alertes w) - 3)%nat with 0%nat by lia.
    simpl. rewrite app_nil_r. split; reflexivity.
  - cbn [enregistrements map executer executer_op]. unfold bind.
    destruct (enregistrer_cas m w Hb) as (w1 & -> & Hb1 & Hcas).
    destruct (IH w1 Hb1) as (w' & H & Hj & He).
    fold (enregistrements reste). rewrite H.
    exists w'. split; [reflexivity |].
    destruct Hcas as [(_ & Hj1 & He1) | (e & r & Hjw & Hr & Hj1 & He1)].
    + rewrite Hj, He, Hj1, He1, <- !app_assoc. split; reflexivity.
    + rewrite Hj, He, Hj1, He1, Hjw, <- !app_assoc.
      destruct r as [| r1 [| r2 [| ? ?]]]; try discriminate.
      simpl. rewrite Nat.sub_0_r. split; reflexivity.
Qed.

Lemma journal_fenetre_witness :
  exists w',
    executer (enregistrements ["m1"; "m2"]) monde_exemple = Ok tt w'
    /\ journal_alertes w'
       = drop (length (journal_alertes monde_exemple ++ ["m1"; "m2"]) - 3)
           (journal_alertes monde_exemple ++ ["m1"; "m2"])
    /\ ejectees w'
       = ejectees monde_exemple
         ++ take (length (journal_alertes monde_exemple ++ ["m1"; "m2"]) - 3)
              (journal_alertes monde_exemple ++ ["m1"; "m2"]).
Proof.
  apply (journal_fenetre ["m1"; "m2"] monde_exemple).
  unfold journal_borne. simpl. unfold MAX_LOG_SIZE. lia.
Defined.

(** ** The disk may fail *)






(** ** Sorting twice *)

(** X17: a list already in decreasing order of volume is returned as it is, so
    sorting a sorted parcel again changes nothing; the result always has
    the length of the input. *)
Theorem trier_deja_trie (produits autres : list string) :
  decroissant _extraire_volume_cle produits ->
  _trier_produits_volume produits = produits
  /\ _trier_produits_volume (_trier_produits_volume autres)
     = _trier_produits_volume autres
  /\ length (_trier_produits_volume autres) = length autres.
Proof.
  intros Hs. split; [| split].
  - symmetry. apply trier_unique; [exact Hs |]. intros v. reflexivity.
  - symmetry. apply trier_unique; [apply trier_decroissant |].
    intros v. reflexivity.
  - apply Permutation_length, trier_perm.
Qed.

Lemma trier_deja_trie_witness :
  _trier_produits_volume ["B3"; "C2"; "X2"; "A1"; "Z"]
  = ["B3"; "C2"; "X2"; "A1"; "Z"]
  /\ _trier_produits_volume (_trier_produits_volume ["A1"; "B3"])
     = _trier_produits_volume ["A1"; "B3"]
  /\ length (_trier_produits_volume ["A1"; "B3"]) = length ["A1"; "B3"].
Proof.
  apply (trier_deja_trie ["B3"; "C2"; "X2"; "A1"; "Z"] ["A1"; "B3"]).
  unfold decroissant.
  repeat (constructor; [| repeat (constructor; [vm_compute; discriminate |]); constructor]).
  constructor.
Defined.

(** ** The report *)

Lemma formater_depuis_spec alertes :
  forall i,
    length (formater_depuis i alertes) = length alertes
    /\ forall n a,
         alertes !! n = Some a ->
         formater_depuis i alertes !! n
         = Some ("Priorité " +:+ Py.str (i + Z.of_nat n) +:+ " : " +:+ a).
Proof.
  induction alertes as [| x l IH]; intros i.
  - split; [reflexivity |]. intros n a H. destruct n; discriminate.
  - destruct (IH (i + 1)) as [Hl Hn]. split; [simpl; rewrite Hl; reflexivity |].
    intros [| n] a H.
    + injection H as ->. simpl. rewrite Z.add_0_r. reflexivity.
    + simpl in H.
      change (formater_depuis i (x :: l) !! S n)
        with (formater_depuis (i + 1) l !! n).
      rewrite (Hn n a H).
      replace (i + Z.of_nat (S n)) with (i + 1 + Z.of_nat n) by lia.
      reflexivity.
Qed.

(** X18: the report lists the journal oldest first and numbers its lines from 1:
    it has one line per journal entry, and the entry of index [n] is on the
    line "Priorité n+1 : <alert>". *)
Theorem rapport_numerote (w : Monde) (n : nat) (a : string) :
  journal_alertes w !! n = Some a ->
  length (_formater_historique_alertes w) = length (journal_alertes w)
  /\ _formater_historique_alertes w !! n
     = Some ("Priorité " +:+ Py.str (Z.of_nat n + 1) +:+ " : " +:+ a).
Proof.
  intros H. unfold _formater_historique_alertes.
  destruct (formater_depuis_spec (journal_alertes w) 1) as [Hl Hn].
  split; [exact Hl |]. rewrite (Hn n a H).
  replace (Z.of_nat n + 1) with (1 + Z.of_nat n) by lia. reflexivity.
Qed.

Lemma rapport_numerote_witness :
  length (_formater_historique_alertes monde_exemple)
  = length (journal_alertes monde_exemple)
  /\ _formater_historique_alertes monde_exemple !! 2%nat
     = Some ("Priorité " +:+ Py.str (Z.of_nat 2 + 1) +:+ " : "
             +:+ message_alerte "A12" 2).
Proof.
  apply (rapport_numerote monde_exemple 2 (message_alerte "A12" 2)).
  reflexivity.
Defined.

Lemma formater_depuis_priorite alertes :
  forall i x, x ∈ formater_depuis i alertes ->
    exists reste, x = String "P" reste.
Proof.
  induction alertes as [| a l IH]; intros i x Hx; simpl in Hx.
  - apply elem_of_nil in Hx. destruct Hx.
  - apply elem_of_cons in Hx. destruct Hx as [-> | Hx]; [| eapply IH, Hx].
    eexists. reflexivity.
Qed.

(** X19: the printed report: a header, then either the single line "Aucune
    alerte active. Stock sain." (exactly when the journal is empty) or one
    numbered line per journal entry, then a footer.  With the journal
    bounded, the report has between three and five items. *)
Theorem rapport_affiche (w : Monde) :
  journal_borne w ->
  length (afficher_rapport_alertes w)
  = (2 + Nat.max 1 (length (journal_alertes w)))%nat
  /\ (3 <= length (afficher_rapport_alertes w) <= 5)%nat
  /\ ("Aucune alerte active. Stock sain." ∈ afficher_rapport_alertes w
      <-> journal_alertes w = [])
  /\ (forall n a, journal_alertes w !! n = Some a ->
        afficher_rapport_alertes w !! S n
        = Some ("Priorité " +:+ Py.str (Z.of_nat n + 1) +:+ " : " +:+ a)).
Proof.
  unfold journal_borne, MAX_LOG_SIZE. intros Hb.
  unfold afficher_rapport_alertes.
  destruct (journal_alertes w) as [| a0 l] eqn:Hj.
  - split; [reflexivity |]. split; [simpl; lia |]. split.
    + split; [reflexivity |]. intros _. right. left.
    + intros n a H. destruct n; discriminate.
  - assert (Hl : length (_formater_historique_alertes w) = S (length l)).
    { unfold _formater_historique_alertes. rewrite Hj.
      apply (formater_depuis_spec (a0 :: l) 1). }
    split.
    { cbn [app]. cbn [length]. rewrite length_app, Hl. simpl. lia. }
    split.
    { cbn [app]. cbn [length]. rewrite length_app, Hl. simpl in *. lia. }
    split.
    + split; [| discriminate]. intros Hin. exfalso.
      cbn [app] in Hin. apply elem_of_cons in Hin.
      destruct Hin as [Hin | Hin]; [discriminate |].
      apply elem_of_app in Hin. destruct Hin as [Hin | Hin].
      * apply formater_depuis_priorite in Hin. destruct Hin as [? Hin].
        discriminate.
      * apply list_elem_of_singleton in Hin. discriminate.
    + intros n a H. cbn [app].
      change ((?x :: ?t) !! S n) with (t !! n).
      rewrite lookup_app_l.
      * apply rapport_numerote. rewrite Hj. exact H.
      * rewrite Hl. apply lookup_lt_Some in H. simpl in H. lia.
Qed.

Lemma rapport_affiche_witness :
  length (afficher_rapport_alertes monde_exemple)
  = (2 + Nat.max 1 (length (journal_alertes monde_exemple)))%nat
  /\ (3 <= length (afficher_rapport_alertes monde_exemple) <= 5)%nat
  /\ ("Aucune alerte active. Stock sain." ∈ afficher_rapport_alertes monde_exemple
      <-> journal_alertes monde_exemple = [])
  /\ (forall n a, journal_alertes monde_exemple !! n = Some a ->
        afficher_rapport_alertes monde_exemple !! S n
        = Some ("Priorité " +:+ Py.str (Z.of_nat n + 1) +:+ " : " +:+ a)).
Proof.
  apply (rapport_affiche monde_exemple).
  unfold journal_borne. simpl. unfold MAX_LOG_SIZE. lia.
Defined.

Example rapport_exemple :
  afficher_rapport_alertes (init [] [])
  = [Py.nl +:+ "=== RAPPORT DE SÉCURITÉ STOCK ===";
     "Aucune alerte active. Stock sain.";
     "=================================" +:+ Py.nl]
  /\ afficher_rapport_alertes monde_exemple
     = [Py.nl +:+ "=== RAPPORT DE SÉCURITÉ STOCK ===";
        "Priorité 1 : ALERTE: Stock critique pour A1 (Qté: 1)";
        "Priorité 2 : ALERTE: Stock critique pour B3 (Qté: 1)";
        "Priorité 3 : ALERTE: Stock critique pour A12 (Qté: 2)";
        "=================================" +:+ Py.nl].
Proof. split; reflexivity. Qed.
